(** * GitHub Repository Privacy Manager: a shallow embedding of
      [github_privacy.py] and the properties of its specification.

    The program is a linear script: resolve credentials, authenticate, page
    through the public repositories, let the user pick some, confirm, and
    issue one PATCH per picked repository.  The embedding keeps that shape:
    - Python's string methods used by the script are pure functions on
      [string] (module [PyStr]);
    - console input, printed messages and HTTP requests are threaded through
      a state-and-exception monad [M] whose state is the unread console input
      and the trace of observable events;
    - the remote API, the process environment and the config file are a
      read-only [environment];
    - [while True] loops recurse on the console input where each turn reads a
      line, and on explicit fuel where each turn sends a request.

    The definitions come first; the properties follow, from the facts about
    the string methods up to the statements of the specification. *)

From Stdlib Require Import ZArith NArith Ascii String List Lia.
From stdpp Require Import base tactics option list gmap strings pretty.

Local Open Scope string_scope.
Local Open Scope Z_scope.
Local Open Scope list_scope.

(** ** Python string methods (ASCII text) *)

Module PyStr.

(** [str.isspace] on one ASCII character: TAB..CR, FS..US and the space. *)
Definition isspace (c : ascii) : bool :=
  let n := nat_of_ascii c in
  ((9 <=? n)%nat && (n <=? 13)%nat) || ((28 <=? n)%nat && (n <=? 32)%nat).

Fixpoint lstrip (s : string) : string :=
  match s with
  | String c r => if isspace c then lstrip r else s
  | EmptyString => EmptyString
  end.

Fixpoint rstrip (s : string) : string :=
  match s with
  | EmptyString => EmptyString
  | String c r =>
      match rstrip r with
      | EmptyString => if isspace c then EmptyString else String c EmptyString
      | r' => String c r'
      end
  end.

(** [s.strip()] *)
Definition strip (s : string) : string := rstrip (lstrip s).

Definition lower_char (c : ascii) : ascii :=
  let n := nat_of_ascii c in
  if (65 <=? n)%nat && (n <=? 90)%nat then ascii_of_nat (n + 32) else c.

(** [s.lower()] *)
Fixpoint lower (s : string) : string :=
  match s with
  | EmptyString => EmptyString
  | String c r => String (lower_char c) (lower r)
  end.

(** [s.split(sep)] for a one-character separator: never the empty list. *)
Fixpoint split (sep : ascii) (s : string) : list string :=
  match s with
  | EmptyString => [EmptyString]
  | String c r =>
      if Ascii.eqb c sep then EmptyString :: split sep r
      else match split sep r with
           | h :: t => String c h :: t
           | [] => [String c EmptyString]
           end
  end.

(** [c in s] for a one-character [c]. *)
Fixpoint contains (c : ascii) (s : string) : bool :=
  match s with
  | EmptyString => false
  | String d r => Ascii.eqb d c || contains c r
  end.

(** Truth value of a string: [not s] is [negb (truthy s)]. *)
Definition truthy (s : string) : bool :=
  match s with EmptyString => false | _ => true end.

(** [c.isdigit()] on one ASCII character. *)
Definition isdigit (c : ascii) : bool :=
  let n := nat_of_ascii c in
  (48 <=? n)%nat && (n <=? 57)%nat.

Definition digit_value (c : ascii) : option Z :=
  if isdigit c then Some (Z.of_nat (nat_of_ascii c - 48)) else None.

(** The digits of an [int(...)] literal: one or more decimal digits, single
    underscores allowed between two digits. *)
Fixpoint int_digits (s : string) (acc : Z) (after_digit : bool) : option Z :=
  match s with
  | EmptyString => if after_digit then Some acc else None
  | String c r =>
      match digit_value c with
      | Some d => int_digits r (10 * acc + d) true
      | None =>
          if Ascii.eqb c "_" && after_digit then int_digits r acc false
          else None
      end
  end.

(** [int(s)] in base ten; [None] stands for [ValueError].  Surrounding
    white space is ignored and one sign may precede the digits. *)
Definition int (s : string) : option Z :=
  match strip s with
  | EmptyString => None
  | String c r =>
      if Ascii.eqb c "+" then int_digits r 0 false
      else if Ascii.eqb c "-" then Z.opp <$> int_digits r 0 false
      else int_digits (String c r) 0 false
  end.


End PyStr.

(** ** Data model *)

(** A repository summary: the fields of the JSON object the script reads.
    [owner_login] is [repo.get('owner', {}).get('login')]. *)
Record repo := {
  name : string;
  owner_login : option string;
  stargazers_count : Z;
  forks_count : Z;
  updated_at : string;
}.

(** What [requests] hands back: a transport failure, or a response. *)
Inductive http_result (A : Type) : Type :=
| ConnectionError
| Response (status_code : Z) (json : A).
Arguments ConnectionError {A}.
Arguments Response {A} status_code json.

(** The Python exceptions that can travel through the script. *)
Inductive exn : Type :=
| RequestException
| ValueError
| IndexError
| KeyError
| EOFError
| KeyboardInterrupt
| SystemExit (code : Z).


(** The parsed command line. *)
Record args := {
  arg_list : bool;
  arg_batch : option string;
  arg_all : bool;
}.

(** The credentials held by a [GitHubPrivacyManager]. *)
Record manager := {
  token : string;
  username : string;
}.

(** What surrounds a run and does not change during it: environment
    variables (after [load_dotenv]), the config file, and the answers of the
    remote API.  The body of the current-user response is its [login] field,
    if it has one.  The list endpoint answers by page number; the update
    endpoint answers by the number of updates requested before and the
    repository name. *)
Record environment := {
  env_token : option string;
  env_username : option string;
  config_token : option string;
  config_username : option string;
  config_writable : bool;
  api_user : http_result (option string);
  api_list : Z -> http_result (list repo);
  api_patch : nat -> string -> http_result unit;
}.

(** ** Observable events *)

(** The lines the script prints, by what they say; layout is left out. *)
Inductive message : Type :=
| MsgBanner
| MsgAuthenticated (login : string)
| MsgAuthFailed (status : Z)
| MsgNetworkError
| MsgFetching
| MsgFetchError
| MsgPatchFailed (repo_name : string)
| MsgNoPublicRepos
| MsgFound (count : nat)
| MsgRule
| MsgRow (i : nat) (repo_name : string) (stars forks : Z) (updated : string)
| MsgSelectionOptions
| MsgInvalidSelection
| MsgAboutTo (count : nat)
| MsgBullet (repo_name : string)
| MsgNoneSelected
| MsgMaking (count : nat)
| MsgProcessing (repo_name : string)
| MsgDone
| MsgFailed
| MsgSummary (success_count total : nat)
| MsgConfigSaved
| MsgConfigNotSaved
| MsgTokenRequired
| MsgCredentialsRequired
| MsgListingComplete
| MsgNotFound (missing : gset string)
| MsgOperationCancelled
| MsgInterrupted
| MsgUnexpectedError (e : exn).

Inductive prompt : Type :=
| AskToken | AskUsername | AskSave | AskSelection | AskConfirm.

Inductive request : Type :=
| GetUser
| ListRepos (page : Z)
| PatchRepo (owner repo_name : string).

Inductive event : Type :=
| Print (m : message)
| Read (p : prompt) (line : string)
| Send (r : request)
| WriteConfig (tok user : string).

(** What the user does at a prompt: type a line, or press Ctrl-C.  An
    exhausted console is end of file. *)
Inductive key : Type :=
| Line (s : string)
| CtrlC.

Record world := {
  stdin : list key;
  trace : list event;
}.

(** ** The monad of the script *)

Inductive outcome (A : Type) : Type :=
| Ok (a : A)
| Raise (e : exn)
| OutOfFuel.
Arguments Ok {A} a.
Arguments Raise {A} e.
Arguments OutOfFuel {A}.

Definition M (A : Type) : Type := world -> outcome A * world.

Definition ret {A} (a : A) : M A := fun w => (Ok a, w).

Definition bind {A B} (m : M A) (k : A -> M B) : M B :=
  fun w =>
    match m w with
    | (Ok a, w') => k a w'
    | (Raise e, w') => (Raise e, w')
    | (OutOfFuel, w') => (OutOfFuel, w')
    end.

Definition raise {A} (e : exn) : M A := fun w => (Raise e, w).

Definition out_of_fuel {A} : M A := fun w => (OutOfFuel, w).

(** [try: body / except ...: handler]; [handler e = None] when no clause
    matches [e]. *)
Definition try_except {A} (body : M A) (handler : exn -> option (M A)) : M A :=
  fun w =>
    match body w with
    | (Raise e, w') =>
        match handler e with
        | Some h => h w'
        | None => (Raise e, w')
        end
    | r => r
    end.

Definition emit (ev : event) : M unit :=
  fun w => (Ok tt, {| stdin := stdin w; trace := trace w ++ [ev] |}).

Definition print (m : message) : M unit := emit (Print m).

(** [input(...)] and [getpass(...)]. *)
Definition input (p : prompt) : M string :=
  fun w =>
    match stdin w with
    | [] => (Raise EOFError, w)
    | CtrlC :: rest => (Raise KeyboardInterrupt, {| stdin := rest; trace := trace w |})
    | Line s :: rest => (Ok s, {| stdin := rest; trace := trace w ++ [Read p s] |})
    end.

#[global] Instance M_ret : MRet M := @ret.
#[global] Instance M_bind : MBind M := fun A B k m => bind m k.

Fixpoint for_each {A} (f : A -> M unit) (l : list A) : M unit :=
  match l with
  | [] => ret tt
  | x :: r => f x ;; for_each f r
  end.

(** ** The script *)

Definition is_patch (ev : event) : bool :=
  match ev with
  | Send (PatchRepo _ _) => true
  | _ => false
  end.

(** The update requests of a trace, in the order they were sent. *)
Definition patch_requests (tr : list event) : list event := List.filter is_patch tr.

(** [response.raise_for_status()]: 4xx and 5xx raise [HTTPError], a
    [RequestException]. *)
Definition raise_for_status (status_code : Z) : M unit :=
  if (400 <=? status_code) && (status_code <? 600)
  then raise RequestException
  else mret tt.

(** One call of [requests.get] or [requests.patch]: the request goes out,
    then the transport fails or a response comes back. *)
Definition perform {A} (r : request) (answer : http_result A) : M (Z * A) :=
  emit (Send r) ;;
  match answer with
  | ConnectionError => raise RequestException
  | Response status_code json => mret (status_code, json)
  end.

(** How many update requests went out so far: the position of the next one
    in the sequence the update endpoint answers. *)
Definition patches_sent : M nat :=
  fun w => (Ok (length (patch_requests (trace w))), w).

(** [range(a, b)] *)
Definition py_range (a b : Z) : list Z :=
  List.map (fun k => a + Z.of_nat k) (seq 0 (Z.to_nat (b - a))).

(** The value of [x or y] on optional strings. *)
Definition py_or (x y : option string) : option string :=
  match x with
  | Some s => if PyStr.truthy s then x else y
  | None => y
  end.

(** [bool(x)] on an optional string. *)
Definition truthy_opt (x : option string) : bool :=
  match x with
  | Some s => PyStr.truthy s
  | None => false
  end.

(** [if 1 <= i <= len(repos): selected_repos.append(repos[i-1]['name'])]:
    the names appended, or the exception of the subscript. *)
Definition pick (repos : list repo) (i : Z) : exn + list string :=
  if (1 <=? i) && (i <=? Z.of_nat (length repos)) then
    match repos !! Z.to_nat (i - 1) with
    | Some r => inr [name r]
    | None => inl IndexError
    end
  else inr [].

(** [for i in range(start, end + 1)] around [pick] (lines 143-145). *)
Fixpoint pick_each (repos : list repo) (indices : list Z) : exn + list string :=
  match indices with
  | [] => inr []
  | i :: rest =>
      match pick repos i with
      | inl e => inl e
      | inr picked =>
          match pick_each repos rest with
          | inl e => inl e
          | inr more => inr (picked ++ more)
          end
      end
  end.

(** The body of [for part in parts] (lines 139-150): what one token appends
    to [selected_repos]. *)
Definition select_part (repos : list repo) (part : string) : exn + list string :=
  let part := PyStr.strip part in
  if PyStr.contains "-" part then
    match PyStr.split "-" part with
    | [a; b] =>
        match PyStr.int a, PyStr.int b with
        | Some start, Some end_ => pick_each repos (py_range start (end_ + 1))
        | _, _ => inl ValueError
        end
    | _ => inl ValueError
    end
  else
    match PyStr.int part with
    | Some i => pick repos i
    | None => inl ValueError
    end.

(** [for part in parts] (line 138): what the tokens append, or the first
    exception. *)
Fixpoint select_parts (repos : list repo) (parts : list string) : exn + list string :=
  match parts with
  | [] => inr []
  | part :: rest =>
      match select_part repos part with
      | inl e => inl e
      | inr picked =>
          match select_parts repos rest with
          | inl e => inl e
          | inr more => inr (picked ++ more)
          end
      end
  end.

(** [list(set(l))]: Python leaves the order open, and so do the theorems,
    which speak of membership and of duplicates only. *)
Definition list_set (l : list string) : list string :=
  elements (list_to_set l : gset string).

(** One turn of the loop of [interactive_selection] after the line is read
    (lines 126-152): the list returned, or the exception raised. *)
Definition selection_turn (repos : list repo) (line : string) : exn + list string :=
  let selection := PyStr.lower (PyStr.strip line) in
  if String.eqb selection "quit" then inr []
  else if String.eqb selection "all" then inr (List.map name repos)
  else
    match select_parts repos (PyStr.split "," selection) with
    | inl e => inl e
    | inr selected_repos => inr (list_set selected_repos)
    end.

(** The [while True] of [interactive_selection]: each turn reads one line,
    so the loop recurses on the unread console input. *)
Fixpoint selection_loop (repos : list repo) (keys : list key) (tr : list event)
  : outcome (list string) * world :=
  match keys with
  | [] => (Raise EOFError, {| stdin := []; trace := tr |})
  | CtrlC :: rest => (Raise KeyboardInterrupt, {| stdin := rest; trace := tr |})
  | Line s :: rest =>
      let tr := tr ++ [Read AskSelection s] in
      match selection_turn repos s with
      | inr names => (Ok names, {| stdin := rest; trace := tr |})
      | inl ValueError | inl IndexError =>
          selection_loop repos rest (tr ++ [Print MsgInvalidSelection])
      | inl e => (Raise e, {| stdin := rest; trace := tr |})
      end
  end.

(** [' yes '.strip().lower() in ['yes', 'y']] *)
Definition affirmative (answers : list string) (line : string) : bool :=
  bool_decide (PyStr.lower (PyStr.strip line) ∈ answers).

Section Script.

Context (E : environment).

(** Lines 27-40. *)
Definition test_authentication (self : manager) : M bool :=
  try_except
    ('(status_code, user_data) ← perform GetUser (api_user E);
     if status_code =? 200 then
       match user_data with
       | Some login => print (MsgAuthenticated login) ;; mret true
       | None => raise KeyError
       end
     else print (MsgAuthFailed status_code) ;; mret false)
    (fun e =>
       match e with
       | RequestException => Some (print MsgNetworkError ;; mret false)
       | _ => None
       end).

(** Line 70: [repo.get('owner', {}).get('login') == self.username]. *)
Definition owned (self : manager) (r : repo) : bool :=
  bool_decide (owner_login r = Some (username self)).

(** The [while True] of [get_public_repos] (lines 50-77): one request per
    turn, [fuel] bounds the turns.  [None] from the [try] is [break]. *)
Fixpoint fetch_pages (fuel : nat) (self : manager) (page : Z) (repos : list repo)
  : M (list repo) :=
  match fuel with
  | O => out_of_fuel
  | S fuel =>
      next ← try_except
        ('(status_code, page_repos) ← perform (ListRepos page) (api_list E page);
         raise_for_status status_code ;;
         match page_repos with
         | [] => mret None
         | _ =>
             let owned_repos := List.filter (owned self) page_repos in
             mret (Some (repos ++ owned_repos, page + 1))
         end)
        (fun e =>
           match e with
           | RequestException => Some (print MsgFetchError ;; mret None)
           | _ => None
           end);
      match next with
      | None => mret repos
      | Some (repos, page) => fetch_pages fuel self page repos
      end
  end.

(** Lines 42-79. *)
Definition get_public_repos (fuel : nat) (self : manager) : M (list repo) :=
  print MsgFetching ;;
  fetch_pages fuel self 1 [].

(** Lines 82-94. *)
Definition make_repo_private (self : manager) (repo_name : string) : M bool :=
  try_except
    (sent ← patches_sent;
     '(status_code, _) ← perform (PatchRepo (username self) repo_name)
                           (api_patch E sent repo_name);
     raise_for_status status_code ;;
     mret true)
    (fun e =>
       match e with
       | RequestException => Some (print (MsgPatchFailed repo_name) ;; mret false)
       | _ => None
       end).

(** The [for] of [display_repos] (lines 105-110). *)
Fixpoint display_rows (i : nat) (repos : list repo) : M unit :=
  match repos with
  | [] => mret tt
  | r :: rest =>
      print (MsgRow i (name r) (stargazers_count r) (forks_count r)
               (String.substring 0 10 (updated_at r))) ;;
      display_rows (S i) rest
  end.

(** Lines 96-112. *)
Definition display_repos (self : manager) (repos : list repo) : M unit :=
  match repos with
  | [] => print MsgNoPublicRepos
  | _ =>
      print (MsgFound (length repos)) ;;
      print MsgRule ;;
      display_rows 1 repos ;;
      print MsgRule
  end.

(** Lines 114-155. *)
Definition interactive_selection (self : manager) (repos : list repo) : M (list string) :=
  match repos with
  | [] => mret []
  | _ =>
      print MsgSelectionOptions ;;
      ((fun w => selection_loop repos (stdin w) (trace w)) : M (list string))
  end.

(** Lines 157-167. *)
Definition confirm_action (self : manager) (repo_names : list string) : M bool :=
  match repo_names with
  | [] => mret false
  | _ =>
      print (MsgAboutTo (length repo_names)) ;;
      for_each (fun n => print (MsgBullet n)) repo_names ;;
      confirm ← input AskConfirm;
      mret (affirmative ["yes"; "y"] confirm)
  end.

(** The [for] of [process_repos] (lines 178-184). *)
Fixpoint process_each (self : manager) (repo_names : list string) (success_count : nat)
  : M nat :=
  match repo_names with
  | [] => mret success_count
  | repo_name :: rest =>
      print (MsgProcessing repo_name) ;;
      ok ← make_repo_private self repo_name;
      if ok : bool
      then print MsgDone ;; process_each self rest (S success_count)
      else print MsgFailed ;; process_each self rest success_count
  end.

(** Lines 169-186. *)
Definition process_repos (self : manager) (repo_names : list string) : M unit :=
  match repo_names with
  | [] => print MsgNoneSelected
  | _ =>
      print (MsgMaking (length repo_names)) ;;
      success_count ← process_each self repo_names 0;
      print (MsgSummary success_count (length repo_names))
  end.

(** Lines 199-207; [config_writable] tells whether the file can be written. *)
Definition save_config (tok user : string) : M unit :=
  if config_writable E
  then emit (WriteConfig tok user) ;; print MsgConfigSaved
  else print MsgConfigNotSaved.

(** Lines 209-232; [getpass] reads from the console as [input] does. *)
Definition get_credentials : M (string * string) :=
  let tok := py_or (env_token E) (config_token E) in
  let user := py_or (env_username E) (config_username E) in
  tok ← (if truthy_opt tok then mret (default "" tok)
         else print MsgTokenRequired ;; line ← input AskToken; mret (PyStr.strip line));
  user ← (if truthy_opt user then mret (default "" user)
          else line ← input AskUsername; mret (PyStr.strip line));
  (if negb (truthy_opt (config_token E)) || negb (truthy_opt (config_username E)) then
     save_creds ← input AskSave;
     if affirmative ["y"; "yes"] save_creds then save_config tok user else mret tt
   else mret tt) ;;
  mret (tok, user).

(** Lines 283-285 of [main]: the names of [--batch] that were fetched. *)
Definition batch_selection (batch : string) (repos : list repo) : list string :=
  let repo_names := List.map PyStr.strip (PyStr.split "," batch) in
  let available_names : gset string := list_to_set (List.map name repos) in
  List.filter (fun n => bool_decide (n ∈ available_names)) repo_names.

(** Line 287 of [main]. *)
Definition batch_missing (batch : string) (repos : list repo) : gset string :=
  let repo_names := List.map PyStr.strip (PyStr.split "," batch) in
  list_to_set repo_names ∖ list_to_set (batch_selection batch repos).

(** Lines 278-291 of [main]. *)
Definition select_repos (a : args) (self : manager) (repos : list repo) : M (list string) :=
  if arg_all a then mret (List.map name repos)
  else if truthy_opt (arg_batch a) then
    let batch := default "" (arg_batch a) in
    let missing := batch_missing batch repos in
    (if bool_decide (missing = ∅) then mret tt else print (MsgNotFound missing)) ;;
    mret (batch_selection batch repos)
  else interactive_selection self repos.

(** Lines 293-296 of [main]. *)
Definition conclude (self : manager) (selected_repos : list string) : M unit :=
  match selected_repos with
  | [] => print MsgOperationCancelled
  | _ =>
      confirmed ← confirm_action self selected_repos;
      if confirmed : bool
      then process_repos self selected_repos
      else print MsgOperationCancelled
  end.

(** The body of the [try] of [main] (lines 260-296). *)
Definition main_body (fuel : nat) (a : args) : M unit :=
  '(tok, user) ← get_credentials;
  if negb (PyStr.truthy tok) || negb (PyStr.truthy user) then
    print MsgCredentialsRequired ;; raise (SystemExit 1)
  else
    let manager := {| token := tok; username := user |} in
    authenticated ← test_authentication manager;
    if negb authenticated then raise (SystemExit 1)
    else
      repos ← get_public_repos fuel manager;
      display_repos manager repos ;;
      if arg_list a then print MsgListingComplete
      else
        selected_repos ← select_repos a manager repos;
        conclude manager selected_repos.

(** The [except] clauses of [main] and the end of the process: the exit
    status is that of [sys.exit], 0 after an interrupt or a normal return,
    1 after any other exception. *)
Definition exit_status (r : outcome unit * world) : outcome Z * world :=
  match r with
  | (Ok _, w) => (Ok 0, w)
  | (Raise (SystemExit code), w) => (Ok code, w)
  | (Raise KeyboardInterrupt, w) => (print MsgInterrupted ;; mret 0) w
  | (Raise e, w) => (print (MsgUnexpectedError e) ;; mret 1) w
  | (OutOfFuel, w) => (OutOfFuel, w)
  end.

(** Lines 256-302, after the command line is parsed. *)
Definition main (fuel : nat) (a : args) : M Z :=
  print MsgBanner ;;
  ((fun w => exit_status (main_body fuel a w)) : M Z).

End Script.

(** ** Vocabulary of the statements *)

(** [w] after the events [evs]. *)
Definition log (w : world) (evs : list event) : world :=
  {| stdin := stdin w; trace := trace w ++ evs |}.

(** The events each routine may add to the trace. *)
Definition credentials_footprint (ev : event) : bool :=
  match ev with
  | Print _ | Read AskToken _ | Read AskUsername _ | Read AskSave _ | WriteConfig _ _ => true
  | _ => false
  end.

Definition authentication_footprint (ev : event) : bool :=
  match ev with
  | Print _ | Send GetUser => true
  | _ => false
  end.

Definition listing_footprint (ev : event) : bool :=
  match ev with
  | Print _ | Send (ListRepos _) => true
  | _ => false
  end.

Definition selection_footprint (ev : event) : bool :=
  match ev with
  | Print _ | Read AskSelection _ => true
  | _ => false
  end.

Definition confirmation_footprint (ev : event) : bool :=
  match ev with
  | Print _ | Read AskConfirm _ => true
  | _ => false
  end.

Definition update_footprint (ev : event) : bool :=
  match ev with
  | Print _ | Send (PatchRepo _ _) => true
  | _ => false
  end.

(** Events that can precede the listing: no list request, no update. *)
Definition before_listing (ev : event) : bool :=
  credentials_footprint ev || authentication_footprint ev.

(** Events that can precede the confirmation: no update request and no
    answer to the confirmation prompt. *)
Definition before_confirmation (ev : event) : bool :=
  match ev with
  | Send (PatchRepo _ _) | Read AskConfirm _ => false
  | _ => true
  end.

(** The exceptions of the console, of a missing key, and none at all. *)
Definition console_exn (e : exn) : bool :=
  match e with
  | EOFError | KeyboardInterrupt => true
  | _ => false
  end.

Definition key_error (e : exn) : bool :=
  match e with
  | KeyError => true
  | _ => false
  end.

Definition no_exn (e : exn) : bool := false.

Definition no_exit (e : exn) : bool :=
  match e with
  | SystemExit _ => false
  | _ => true
  end.


(** A response that [raise_for_status] lets through. *)
Definition passes (status_code : Z) : bool :=
  negb ((400 <=? status_code) && (status_code <? 600)).

(** The update of one repository succeeded: a response came and passed. *)
Definition updated (answer : http_result unit) : bool :=
  match answer with
  | ConnectionError => false
  | Response status_code _ => passes status_code
  end.

(** How many of the updates of [repo_names] succeed when [sent] updates
    were requested before. *)
Fixpoint successes (E : environment) (sent : nat) (repo_names : list string) : nat :=
  match repo_names with
  | [] => 0
  | n :: rest =>
      ((if updated (api_patch E sent n) then 1 else 0) + successes E (S sent) rest)%nat
  end.

(** The list endpoint answers the requests for the pages [first],
    [first + 1], ... with the pages [pages], none of them empty. *)
Definition delivers (E : environment) (first : Z) (pages : list (list repo)) : Prop :=
  ∀ i items, pages !! i = Some items →
             items ≠ [] ∧
             ∃ status_code, api_list E (first + Z.of_nat i) = Response status_code items
                            ∧ passes status_code = true.

(** A request that fails: no response, or a 4xx or 5xx response. *)
Definition request_error {A} (answer : http_result A) : Prop :=
  answer = ConnectionError ∨
  ∃ status_code body, answer = Response status_code body ∧ 400 <= status_code < 600.

(** The repositories of the pages that [self] owns, in order. *)
Definition owned_of (self : manager) (pages : list (list repo)) : list repo :=
  concat (List.map (filter (λ r, owner_login r = Some (username self))) pages).

(** The list requests for the pages [first] to [first + count - 1]. *)
Definition list_requests (first : Z) (count : nat) : list event :=
  List.map (λ i, Send (ListRepos (first + Z.of_nat i))) (seq 0 count).

(** The [try] block of [main], entered at [w], finds a credential missing. *)
Definition credentials_missing (E : environment) (w : world) : Prop :=
  ∃ tok user w1, get_credentials E w = (Ok (tok, user), w1) ∧
                 (PyStr.truthy tok = false ∨ PyStr.truthy user = false).

(** The [try] block of [main], entered at [w], has its credentials and
    authenticates as [self]: [test_authentication] returns [result] at [w']. *)
Definition authentication (E : environment) (w : world) (self : manager)
    (result : bool) (w' : world) : Prop :=
  ∃ w1, get_credentials E w = (Ok (token self, username self), w1) ∧
        PyStr.truthy (token self) = true ∧ PyStr.truthy (username self) = true ∧
        test_authentication E self w1 = (Ok result, w').

Definition authentication_fails (E : environment) (w : world) : Prop :=
  ∃ self w', authentication E w self false w'.


(** The [try] block of [main], entered at [w], gets to line 293 with
    [selected_repos], and stands at [w']. *)
Definition reaches_selection (E : environment) (fuel : nat) (a : args) (w : world)
    (self : manager) (selected_repos : list string) (w' : world) : Prop :=
  ∃ w2 repos w3 w4,
    authentication E w self true w2 ∧
    get_public_repos E fuel self w2 = (Ok repos, w3) ∧
    display_repos self repos w3 = (Ok tt, w4) ∧
    arg_list a = false ∧
    select_repos a self repos w4 = (Ok selected_repos, w').

(** The same environment with another update endpoint. *)
Definition with_patch (E : environment) (patch : nat → string → http_result unit)
  : environment :=
  {| env_token := env_token E;
     env_username := env_username E;
     config_token := config_token E;
     config_username := config_username E;
     config_writable := config_writable E;
     api_user := api_user E;
     api_list := api_list E;
     api_patch := patch |}.

(** [w'] is [w] after more events, all passing [f]. *)
Definition extends (f : event → bool) (w w' : world) : Prop :=
  ∃ evs, trace w' = trace w ++ evs ∧ Forall (λ ev, f ev = true) evs.

(** Every run of [m] extends the trace by events that pass [f], and raises
    only exceptions that pass [g]. *)
Definition obeys {A} (f : event → bool) (g : exn → bool) (m : M A) : Prop :=
  ∀ w out w', m w = (out, w') →
    (∃ evs, trace w' = trace w ++ evs ∧ Forall (λ ev, f ev = true) evs) ∧
    (∀ e, out = Raise e → g e = true).

(** ** The selection grammar of the specification *)





(** [x] is the name of the repository at the 1-indexed, in-range position [i]. *)
Definition at_position (repos : list repo) (i : Z) (x : string) : Prop :=
  1 <= i <= Z.of_nat (length repos) ∧
  ∃ r, repos !! Z.to_nat (i - 1) = Some r ∧ name r = x.


(** A well-formed token as the script reads it: an integer literal without
    a dash, or two of them around a single dash. *)
Definition well_formed (part : string) : Prop :=
  let p := PyStr.strip part in
  (PyStr.contains "-" p = false ∧ is_Some (PyStr.int p)) ∨
  (∃ a b, p = a +:+ String "-" b ∧
          PyStr.contains "-" a = false ∧ PyStr.contains "-" b = false ∧
          is_Some (PyStr.int a) ∧ is_Some (PyStr.int b)).

Definition malformed (part : string) : Prop := ¬ well_formed part.




(** ** Vocabulary of the further properties *)

(** A line the selection loop rejects: not a keyword, and with a malformed
    token. *)
Definition rejected (line : string) : Prop :=
  let selection := PyStr.lower (PyStr.strip line) in
  selection ≠ "quit" ∧ selection ≠ "all" ∧
  ∃ part, part ∈ PyStr.split "," selection ∧ malformed part.


(** A token, stripped, that is empty, or that has a dash with nothing but
    blanks before it, nothing but blanks after it, or another dash after
    it. *)
Definition misshapen (p : string) : Prop :=
  p = "" ∨
  ∃ a b, p = a +:+ String "-" b ∧ PyStr.contains "-" a = false ∧
         (PyStr.strip a = "" ∨ PyStr.strip b = "" ∨ PyStr.contains "-" b = true).

(** Events that can precede the selection: those of the credentials, of the
    authentication and of the listing. *)
Definition before_selection (ev : event) : bool :=
  credentials_footprint ev || authentication_footprint ev || listing_footprint ev.


(** Printed lines only. *)
Definition printed (ev : event) : bool :=
  match ev with
  | Print _ => true
  | _ => false
  end.

Definition any_exn (e : exn) : bool := true.

(** ** Sample runs *)

Module Sample.

Definition mk (n owner : string) : repo :=
  {| name := n; owner_login := Some owner; stargazers_count := 0;
     forks_count := 0; updated_at := "2024-05-01T12:00:00Z" |}.

Definition me : manager := {| token := "t0ken"; username := "u" |}.

Definition three : list repo := [mk "a" "u"; mk "b" "u"; mk "c" "u"].

(** Credentials in the environment and in the config file, one page of
    three repositories, every update accepted. *)
Definition env : environment :=
  {| env_token := Some "t0ken";
     env_username := Some "u";
     config_token := Some "t0ken";
     config_username := Some "u";
     config_writable := true;
     api_user := Response 200 (Some "u");
     api_list := λ page, if page =? 1 then Response 200 three else Response 200 [];
     api_patch := λ _ _, Response 200 tt |}.

Definition with_user (E : environment) (answer : http_result (option string))
  : environment :=
  {| env_token := env_token E;
     env_username := env_username E;
     config_token := config_token E;
     config_username := config_username E;
     config_writable := config_writable E;
     api_user := answer;
     api_list := api_list E;
     api_patch := api_patch E |}.

Definition with_list (E : environment) (answer : Z → http_result (list repo))
  : environment :=
  {| env_token := env_token E;
     env_username := env_username E;
     config_token := config_token E;
     config_username := config_username E;
     config_writable := config_writable E;
     api_user := api_user E;
     api_list := answer;
     api_patch := api_patch E |}.

Definition console (keys : list key) : world := {| stdin := keys; trace := [] |}.

Definition interactive : args :=
  {| arg_list := false; arg_batch := None; arg_all := false |}.

Definition batch (names : string) : args :=
  {| arg_list := false; arg_batch := Some names; arg_all := false |}.

End Sample.

(** * Properties *)

(** ** The model at work *)

Example int_plain : PyStr.int " 42 " = Some 42.
Proof. reflexivity. Qed.

Example int_signed : PyStr.int "-7" = Some (-7) ∧ PyStr.int "+7" = Some 7.
Proof. split; reflexivity. Qed.

Example int_underscore : PyStr.int "1_000" = Some 1000 ∧ PyStr.int "1__0" = None.
Proof. split; reflexivity. Qed.

Example int_rejects : PyStr.int "" = None ∧ PyStr.int "1 2" = None ∧ PyStr.int "x" = None.
Proof. repeat split; reflexivity. Qed.

Example split_commas : PyStr.split "," "1-2,,4" = ["1-2"; ""; "4"].
Proof. reflexivity. Qed.

Example strip_lower : PyStr.lower (PyStr.strip "  YeS ") = "yes".
Proof. reflexivity. Qed.

Example turn_span_and_index : selection_turn Sample.three "1-2,4" = inr ["a"; "b"].
Proof. by vm_compute. Qed.

Example turn_all : selection_turn Sample.three " ALL " = inr ["a"; "b"; "c"].
Proof. by vm_compute. Qed.

Example turn_negative : selection_turn Sample.three "-3" = inl ValueError.
Proof. by vm_compute. Qed.

Example turn_spaced_span : selection_turn Sample.three "2 - 2" = inr ["b"].
Proof. by vm_compute. Qed.

Example batch_one_missing :
  batch_selection "a, y" Sample.three = ["a"] ∧ batch_missing "a, y" Sample.three = {["y"]}.
Proof. by vm_compute. Qed.

(** ** Facts about the string methods *)

Module PyStrFacts.
Import PyStr.

Ltac by_cases_on_char c :=
  destruct c as [[] [] [] [] [] [] [] []]; vm_compute; try reflexivity; try discriminate.


Lemma isdigit_lower c : isdigit c = true → lower_char c = c.
Proof. by_cases_on_char c. Qed.











Lemma split_clean sep s : contains sep s = false → split sep s = [s].
Proof.
  induction s as [|c r IH]; simpl; [done|].
  rewrite orb_false_iff. intros [-> Hr]. by rewrite (IH Hr).
Qed.

Lemma split_app sep a b :
  contains sep a = false → split sep (a +:+ String sep b) = a :: split sep b.
Proof.
  induction a as [|c r IH]; simpl.
  - intros _. by rewrite Ascii.eqb_refl.
  - rewrite orb_false_iff. intros [-> Hr]. by rewrite (IH Hr).
Qed.

(** [sep.join(s.split(sep)) == s], and no piece holds the separator. *)
Lemma split_join sep s :
  String.concat (String sep "") (split sep s) = s ∧
  Forall (fun p => contains sep p = false) (split sep s).
Proof.
  induction s as [|c r [IHj IHf]]; simpl; [by repeat constructor|].
  destruct (Ascii.eqb_spec c sep) as [->|Hne].
  - split; [|by constructor].
    simpl. destruct (split sep r) eqn:Hs; [by destruct r|]. simpl in *. by rewrite IHj.
  - destruct (split sep r) as [|h t] eqn:Hs; [by destruct r|].
    split.
    + simpl in *. destruct t; simpl in *; by rewrite <- IHj.
    + inversion IHf; subst. constructor; [|done]. simpl.
      rewrite orb_false_iff. split; [by apply Ascii.eqb_neq | done].
Qed.

Lemma split_pair sep s a b :
  split sep s = [a; b] →
  s = a +:+ String sep b ∧ contains sep a = false ∧ contains sep b = false.
Proof.
  intros Hs. destruct (split_join sep s) as [Hj Hf]. rewrite Hs in Hj, Hf.
  apply Forall_cons in Hf as [Ha Hf]. apply Forall_cons in Hf as [Hb _].
  simpl in Hj. by rewrite <- Hj.
Qed.

(** Decimal numerals as [str] writes them. *)










End PyStrFacts.

(** ** Facts about the selection parser *)

Module SelectionFacts.
Import PyStr PyStrFacts.


Lemma pick_inr repos i :
  ∃ l, pick repos i = inr l ∧ ∀ x, x ∈ l ↔ at_position repos i x.
Proof.
  unfold pick, at_position.
  destruct ((1 <=? i) && (i <=? Z.of_nat (length repos))) eqn:Hguard.
  - apply andb_true_iff in Hguard as [H1 H2].
    apply Z.leb_le in H1. apply Z.leb_le in H2.
    destruct (lookup_lt_is_Some_2 repos (Z.to_nat (i - 1)) ltac:(lia)) as [r Hr].
    rewrite Hr. exists [name r]. split; [done|]. intros x.
    rewrite list_elem_of_singleton. split.
    + intros ->. split; [lia|]. by exists r.
    + intros (_ & r' & Hr' & <-). congruence.
  - exists []. split; [done|]. intros x. split; [by intros ?%elem_of_nil|].
    intros [Hi _]. apply andb_false_iff in Hguard as [H|H].
    + apply Z.leb_gt in H. lia.
    + apply Z.leb_gt in H. lia.
Qed.

Lemma pick_each_inr repos indices :
  ∃ l, pick_each repos indices = inr l ∧
       ∀ x, x ∈ l ↔ ∃ i, i ∈ indices ∧ at_position repos i x.
Proof.
  induction indices as [|i rest (more & Hmore & IH)]; simpl.
  - exists []. split; [done|]. intros x. split; [by intros ?%elem_of_nil|].
    by intros (i & ?%elem_of_nil & _).
  - destruct (pick_inr repos i) as (picked & -> & Hpicked). rewrite Hmore.
    exists (picked ++ more). split; [done|]. intros x.
    rewrite elem_of_app, Hpicked, IH. split.
    + intros [H|(j & Hj & H)]; [exists i | exists j]; split; try done.
      * by left.
      * by right.
    + intros (j & Hj & H). apply elem_of_cons in Hj as [->|Hj]; [by left|].
      right. by exists j.
Qed.


















Lemma list_set_elem l x : x ∈ list_set l ↔ x ∈ l.
Proof. unfold list_set. by rewrite elem_of_elements, elem_of_list_to_set. Qed.


Lemma contains_sep sep a b : contains sep (a +:+ String sep b) = true.
Proof. induction a as [|c a IH]; simpl; [by rewrite Ascii.eqb_refl | by rewrite IH, orb_true_r]. Qed.

Lemma split_two sep a b :
  contains sep a = false → contains sep b = false → split sep (a +:+ String sep b) = [a; b].
Proof. intros Ha Hb. by rewrite split_app, split_clean. Qed.



(** The parser raises nothing but [ValueError]. *)
Lemma select_part_raises repos part e : select_part repos part = inl e → e = ValueError.
Proof.
  unfold select_part. intros Hsel.
  repeat case_match; try congruence;
    match goal with
    | H : pick_each ?r ?idx = inl _ |- _ => destruct (pick_each_inr r idx) as (? & ? & _)
    | H : pick ?r ?i = inl _ |- _ => destruct (pick_inr r i) as (? & ? & _)
    end; congruence.
Qed.

Lemma select_part_malformed repos part :
  malformed part → select_part repos part = inl ValueError.
Proof.
  intros Hbad. destruct (select_part repos part) as [e|l] eqn:Hsel.
  { by apply select_part_raises in Hsel as ->. }
  exfalso. apply Hbad. unfold well_formed. unfold select_part in Hsel.
  destruct (contains "-" (strip part)) eqn:Hdash.
  - right. destruct (split "-" (strip part)) as [|a [|b [|? ?]]] eqn:Hsplit; try done.
    destruct (int a) eqn:Ha; [|done]. destruct (int b) eqn:Hb; [|done].
    apply split_pair in Hsplit as (Hp & Hna & Hnb).
    exists a, b. rewrite Ha, Hb. eauto 10.
  - left. split; [done|]. destruct (int (strip part)); [eauto | done].
Qed.

Lemma select_parts_raises repos parts e :
  select_parts repos parts = inl e → e = ValueError.
Proof.
  induction parts as [|p rest IH]; simpl; [done|].
  destruct (select_part repos p) eqn:Hp.
  - intros [= <-]. by apply select_part_raises in Hp.
  - destruct (select_parts repos rest); [|done]. intros [= <-]. by apply IH.
Qed.

Lemma select_parts_malformed repos parts part :
  part ∈ parts → malformed part → select_parts repos parts = inl ValueError.
Proof.
  intros Hin Hbad. destruct (select_parts repos parts) as [e|l] eqn:Hsel.
  { by apply select_parts_raises in Hsel as ->. }
  exfalso. revert l Hsel. induction Hin as [p rest|p q rest Hin IH]; simpl; intros l.
  - by rewrite select_part_malformed.
  - destruct (select_part repos q); [done|].
    destruct (select_parts repos rest) eqn:Hrest; [done|]. intros _. by eapply IH.
Qed.

End SelectionFacts.

(** ** A program logic for [M]: what a computation adds to the trace, and
       which exceptions it may raise *)

Module Logic.

Section Rules.
Context (f : event → bool) (g : exn → bool).

Lemma obeys_ret {A} (a : A) : obeys f g (mret a).
Proof.
  intros w out w' [= <- <-]. split; [|done].
  exists []. by rewrite app_nil_r.
Qed.

Lemma obeys_raise {A} e : g e = true → obeys f g (raise e : M A).
Proof.
  intros Hg w out w' [= <- <-]. split; [|by intros ? [= <-]].
  exists []. by rewrite app_nil_r.
Qed.

Lemma obeys_out_of_fuel {A} : obeys f g (out_of_fuel : M A).
Proof.
  intros w out w' [= <- <-]. split; [|done].
  exists []. by rewrite app_nil_r.
Qed.

Lemma obeys_emit ev : f ev = true → obeys f g (emit ev).
Proof.
  intros Hf w out w' [= <- <-]. split; [|done].
  exists [ev]. split; [done|]. by constructor.
Qed.

Lemma obeys_print m : f (Print m) = true → obeys f g (print m).
Proof. apply obeys_emit. Qed.

Lemma obeys_input p :
  (∀ s, f (Read p s) = true) → g EOFError = true → g KeyboardInterrupt = true →
  obeys f g (input p).
Proof.
  intros Hf He Hk w out w'. unfold input.
  destruct (stdin w) as [|[s|] rest]; intros [= <- <-]; simpl.
  - split; [|by intros ? [= <-]]. exists []. by rewrite app_nil_r.
  - split; [|done]. exists [Read p s]. split; [done|]. by constructor.
  - split; [|by intros ? [= <-]]. exists []. by rewrite app_nil_r.
Qed.

Lemma obeys_patches_sent : obeys f g patches_sent.
Proof.
  intros w out w' [= <- <-]. split; [|done].
  exists []. by rewrite app_nil_r.
Qed.

Lemma obeys_bind {A B} (m : M A) (k : A → M B) :
  obeys f g m → (∀ a, obeys f g (k a)) → obeys f g (m ≫= k).
Proof.
  intros Hm Hk w out w'. unfold mbind, M_bind, bind.
  destruct (m w) as [[a|e|] w1] eqn:Hmw; destruct (Hm _ _ _ Hmw) as [(evs1 & Ht1 & Hf1) Hr1].
  - intros Hrun. destruct (Hk a _ _ _ Hrun) as [(evs2 & Ht2 & Hf2) Hr2].
    split; [|done]. exists (evs1 ++ evs2).
    rewrite Ht2, Ht1, app_assoc. split; [done|]. by apply Forall_app.
  - intros [= <- <-]. split; [by exists evs1 |]. intros ? [= <-]. by apply Hr1.
  - intros [= <- <-]. split; [by exists evs1 | done].
Qed.

Lemma obeys_try_except {A} (g' : exn → bool) (body : M A) handler :
  obeys f g' body →
  (∀ e, g' e = true →
        match handler e with
        | Some h => obeys f g h
        | None => g e = true
        end) →
  obeys f g (try_except body handler).
Proof.
  intros Hbody Hhandler w out w'. unfold try_except.
  destruct (body w) as [[a|e|] w1] eqn:Hbw;
    destruct (Hbody _ _ _ Hbw) as [(evs1 & Ht1 & Hf1) Hr1].
  - intros [= <- <-]. split; [by exists evs1 | done].
  - specialize (Hhandler e (Hr1 e eq_refl)). destruct (handler e) as [h|].
    + intros Hrun. destruct (Hhandler _ _ _ Hrun) as [(evs2 & Ht2 & Hf2) Hr2].
      split; [|done]. exists (evs1 ++ evs2).
      rewrite Ht2, Ht1, app_assoc. split; [done|]. by apply Forall_app.
    + intros [= <- <-]. split; [by exists evs1 |]. by intros ? [= <-].
  - intros [= <- <-]. split; [by exists evs1 | done].
Qed.

Lemma obeys_for_each {A} (k : A → M unit) l :
  (∀ a, obeys f g (k a)) → obeys f g (for_each k l).
Proof.
  intros Hk. induction l as [|x r IH]; simpl; [apply obeys_ret|].
  apply obeys_bind; [apply Hk | by intros _].
Qed.

End Rules.

Lemma obeys_weaken {A} (f f' : event → bool) (g g' : exn → bool) (m : M A) :
  (∀ ev, f ev = true → f' ev = true) → (∀ e, g e = true → g' e = true) →
  obeys f g m → obeys f' g' m.
Proof.
  intros Hf Hg Hm w out w' Hrun. destruct (Hm _ _ _ Hrun) as [(evs & Ht & Hall) Hr].
  split; [|by auto]. exists evs. split; [done|]. eapply Forall_impl; eauto.
Qed.

Lemma extends_refl f w : extends f w w.
Proof. exists []. by rewrite app_nil_r. Qed.

Lemma extends_trans f w1 w2 w3 : extends f w1 w2 → extends f w2 w3 → extends f w1 w3.
Proof.
  intros (evs1 & H1 & Hf1) (evs2 & H2 & Hf2). exists (evs1 ++ evs2).
  rewrite H2, H1, app_assoc. split; [done|]. by apply Forall_app.
Qed.

Lemma extends_weaken (f f' : event → bool) w w' :
  (∀ ev, f ev = true → f' ev = true) → extends f w w' → extends f' w w'.
Proof.
  intros Hf (evs & H & Hall). exists evs. split; [done|]. eapply Forall_impl; eauto.
Qed.

Lemma extends_log f w evs : Forall (λ ev, f ev = true) evs → extends f w (log w evs).
Proof. intros H. by exists evs. Qed.

Lemma obeys_extends {A} f g (m : M A) w out w' :
  obeys f g m → m w = (out, w') → extends f w w'.
Proof. intros Hm Hrun. by destruct (Hm _ _ _ Hrun). Qed.

Lemma obeys_raises {A} f g (m : M A) w e w' :
  obeys f g m → m w = (Raise e, w') → g e = true.
Proof. intros Hm Hrun. destruct (Hm _ _ _ Hrun) as [_ Hr]. by apply Hr. Qed.

(** A run of [m ≫= k] either gets through [m], or ends where [m] ends. *)
Lemma bind_cases {A B} (m : M A) (k : A → M B) w out w' :
  (m ≫= k) w = (out, w') →
  (∃ a w1, m w = (Ok a, w1) ∧ k a w1 = (out, w')) ∨
  (∃ e, m w = (Raise e, w') ∧ out = Raise e) ∨
  (m w = (OutOfFuel, w') ∧ out = OutOfFuel).
Proof.
  unfold mbind, M_bind, bind. destruct (m w) as [[a|e|] w1].
  - intros Hrun. left. by exists a, w1.
  - intros [= <- <-]. right. left. by exists e.
  - intros [= <- <-]. right. by right.
Qed.

(** One step of a proof of [obeys]: the rule of the head construct. *)
Ltac obeys_step :=
  lazymatch goal with
  | |- obeys _ _ (mret _) => apply obeys_ret
  | |- obeys _ _ (_ ≫= _) => apply obeys_bind; [|intros ?]
  | |- obeys _ _ (print _) => apply obeys_print; reflexivity
  | |- obeys _ _ (emit _) => apply obeys_emit; reflexivity
  | |- obeys _ _ (raise _) => apply obeys_raise; reflexivity
  | |- obeys _ _ (input _) => apply obeys_input; [intros ?; reflexivity | reflexivity..]
  | |- obeys _ _ patches_sent => apply obeys_patches_sent
  | |- obeys _ _ out_of_fuel => apply obeys_out_of_fuel
  | |- obeys _ _ (for_each _ _) => apply obeys_for_each; intros ?
  | |- obeys _ _ (if ?b then _ else _) => destruct b
  | |- obeys _ _ (match ?x with _ => _ end) => destruct x
  end.

Ltac obeys_auto := repeat obeys_step.

End Logic.

(** ** What each routine adds to the trace and may raise *)

Module Footprints.
Import Logic.

Lemma selection_turn_raises repos line e :
  selection_turn repos line = inl e → e = ValueError.
Proof.
  unfold selection_turn. repeat case_match; try done.
  intros [= <-]. by eapply SelectionFacts.select_parts_raises.
Qed.

Lemma selection_loop_obeys repos keys tr out w' :
  selection_loop repos keys tr = (out, w') →
  (∃ evs, trace w' = tr ++ evs ∧ Forall (λ ev, selection_footprint ev = true) evs) ∧
  (∀ e, out = Raise e → console_exn e = true).
Proof.
  revert tr. induction keys as [|[s|] rest IH]; intros tr; simpl.
  - intros [= <- <-]. split; [|by intros ? [= <-]]. exists []. by rewrite app_nil_r.
  - destruct (selection_turn repos s) as [e|names] eqn:Hturn.
    + apply selection_turn_raises in Hturn as ->. intros Hrun.
      destruct (IH _ Hrun) as [(evs & -> & Hevs) Hraise]. split; [|done].
      exists (Read AskSelection s :: Print MsgInvalidSelection :: evs).
      split; [by rewrite <- !app_assoc | by repeat constructor].
    + intros [= <- <-]. split; [|done]. exists [Read AskSelection s].
      split; [done | by repeat constructor].
  - intros [= <- <-]. split; [|by intros ? [= <-]]. exists []. by rewrite app_nil_r.
Qed.

Lemma interactive_selection_obeys self repos :
  obeys selection_footprint console_exn (interactive_selection self repos).
Proof.
  unfold interactive_selection. destruct repos as [|r rest]; [apply obeys_ret|].
  apply obeys_bind; [obeys_auto|]. intros _ w out w'. apply selection_loop_obeys.
Qed.

Lemma select_repos_obeys a self repos :
  obeys selection_footprint console_exn (select_repos a self repos).
Proof.
  unfold select_repos. destruct (arg_all a); [apply obeys_ret|].
  destruct (truthy_opt (arg_batch a)); [obeys_auto|].
  apply interactive_selection_obeys.
Qed.

Section WithEnvironment.
Context (E : environment).

Lemma get_credentials_obeys :
  obeys credentials_footprint console_exn (get_credentials E).
Proof. unfold get_credentials, save_config. obeys_auto. Qed.

Lemma test_authentication_obeys self :
  obeys authentication_footprint key_error (test_authentication E self).
Proof.
  unfold test_authentication, perform.
  apply obeys_try_except
    with (g' := λ e, match e with RequestException | KeyError => true | _ => false end).
  - obeys_auto.
  - intros [] ?; try done. obeys_auto.
Qed.

Lemma fetch_pages_obeys fuel self page repos :
  obeys listing_footprint no_exn (fetch_pages E fuel self page repos).
Proof.
  revert page repos. induction fuel as [|fuel IH]; intros page repos; simpl.
  { apply obeys_out_of_fuel. }
  apply obeys_bind.
  - apply obeys_try_except
      with (g' := λ e, match e with RequestException => true | _ => false end).
    + unfold perform, raise_for_status. obeys_auto.
    + intros [] ?; try done. obeys_auto.
  - intros [[repos' page']|]; [apply IH | apply obeys_ret].
Qed.

Lemma get_public_repos_obeys fuel self :
  obeys listing_footprint no_exn (get_public_repos E fuel self).
Proof.
  unfold get_public_repos. apply obeys_bind; [obeys_auto|].
  intros _. apply fetch_pages_obeys.
Qed.

Lemma make_repo_private_obeys self repo_name :
  obeys update_footprint no_exn (make_repo_private E self repo_name).
Proof.
  unfold make_repo_private, perform, raise_for_status.
  apply obeys_try_except
    with (g' := λ e, match e with RequestException => true | _ => false end).
  - obeys_auto.
  - intros [] ?; try done. obeys_auto.
Qed.

Lemma process_each_obeys self repo_names success_count :
  obeys update_footprint no_exn (process_each E self repo_names success_count).
Proof.
  revert success_count.
  induction repo_names as [|n rest IH]; intros success_count; simpl.
  { apply obeys_ret. }
  apply obeys_bind; [obeys_auto|]. intros _.
  apply obeys_bind; [apply make_repo_private_obeys|].
  intros []; (apply obeys_bind; [obeys_auto | intros _; apply IH]).
Qed.

Lemma process_repos_obeys self repo_names :
  obeys update_footprint no_exn (process_repos E self repo_names).
Proof.
  unfold process_repos. destruct repo_names as [|n rest]; [obeys_auto|].
  apply obeys_bind; [obeys_auto|]. intros _.
  apply obeys_bind; [apply process_each_obeys|]. intros ?. obeys_auto.
Qed.

End WithEnvironment.

Lemma display_rows_obeys i repos :
  obeys listing_footprint no_exn (display_rows i repos).
Proof.
  revert i. induction repos as [|r rest IH]; intros i; simpl; [apply obeys_ret|].
  apply obeys_bind; [obeys_auto | intros _; apply IH].
Qed.

Lemma display_repos_obeys self repos :
  obeys listing_footprint no_exn (display_repos self repos).
Proof.
  unfold display_repos. destruct repos as [|r rest]; [obeys_auto|].
  do 2 (apply obeys_bind; [obeys_auto | intros _]).
  apply obeys_bind; [apply display_rows_obeys | intros _; obeys_auto].
Qed.

End Footprints.

(** ** Runs of the routines *)

Module Runs.
Import Logic Footprints.

Lemma log_log w a b : log (log w a) b = log w (a ++ b).
Proof. unfold log. simpl. by rewrite app_assoc. Qed.

Lemma log_nil w : log w [] = w.
Proof. destruct w. unfold log. simpl. by rewrite app_nil_r. Qed.

Lemma bind_ok {A B} (m : M A) (k : A → M B) w a w1 :
  m w = (Ok a, w1) → (m ≫= k) w = k a w1.
Proof. intros H. unfold mbind, M_bind, bind. by rewrite H. Qed.


Lemma bind_out_of_fuel {A B} (m : M A) (k : A → M B) w w1 :
  m w = (OutOfFuel, w1) → (m ≫= k) w = (OutOfFuel, w1).
Proof. intros H. unfold mbind, M_bind, bind. by rewrite H. Qed.

Lemma print_run m w : print m w = (Ok tt, log w [Print m]).
Proof. reflexivity. Qed.

Lemma patch_requests_app a b :
  patch_requests (a ++ b) = patch_requests a ++ patch_requests b.
Proof. apply List.filter_app. Qed.

Lemma patch_requests_none f evs :
  (∀ ev, f ev = true → is_patch ev = false) →
  Forall (λ ev, f ev = true) evs → patch_requests evs = [].
Proof.
  intros Hf. induction 1 as [|ev evs Hev _ IH]; simpl; [done|].
  by rewrite (Hf _ Hev).
Qed.

Lemma passes_iff status_code : passes status_code = true ↔ ¬ (400 <= status_code < 600).
Proof.
  unfold passes. rewrite negb_true_iff, andb_false_iff, Z.leb_gt, Z.ltb_ge. lia.
Qed.

Section WithEnvironment.
Context (E : environment).

Lemma test_authentication_run self w :
  test_authentication E self w =
  match api_user E with
  | ConnectionError => (Ok false, log w [Send GetUser; Print MsgNetworkError])
  | Response status_code user_data =>
      if status_code =? 200 then
        match user_data with
        | Some login => (Ok true, log w [Send GetUser; Print (MsgAuthenticated login)])
        | None => (Raise KeyError, log w [Send GetUser])
        end
      else (Ok false, log w [Send GetUser; Print (MsgAuthFailed status_code)])
  end.
Proof.
  unfold test_authentication, try_except, perform, mbind, M_bind, bind, log. simpl.
  destruct (api_user E) as [|status_code [login|]]; simpl;
    try destruct (status_code =? 200); simpl; by rewrite <- ?app_assoc.
Qed.

Lemma make_repo_private_run self repo_name w :
  let answer := api_patch E (length (patch_requests (trace w))) repo_name in
  make_repo_private E self repo_name w =
  (Ok (updated answer),
   log w (Send (PatchRepo (username self) repo_name)
            :: if updated answer then [] else [Print (MsgPatchFailed repo_name)])).
Proof.
  unfold make_repo_private, try_except, perform, raise_for_status, patches_sent,
    mbind, M_bind, bind, log, updated, passes. simpl.
  destruct (api_patch E _ repo_name) as [|status_code []]; simpl.
  - by rewrite <- app_assoc.
  - destruct ((400 <=? status_code) && (status_code <? 600)); simpl;
      by rewrite <- ?app_assoc.
Qed.

Lemma process_each_run self repo_names success_count w :
  ∃ w', process_each E self repo_names success_count w
        = (Ok (success_count
               + successes E (length (patch_requests (trace w))) repo_names)%nat, w') ∧
        stdin w' = stdin w ∧
        patch_requests (trace w')
        = patch_requests (trace w)
          ++ List.map (λ n, Send (PatchRepo (username self) n)) repo_names.
Proof.
  revert success_count w.
  induction repo_names as [|n rest IH]; intros success_count w; simpl.
  { exists w. by rewrite Nat.add_0_r, app_nil_r. }
  rewrite (bind_ok _ _ _ _ _ (print_run _ w)).
  pose proof (make_repo_private_run self n (log w [Print (MsgProcessing n)])) as Hmake.
  simpl in Hmake. rewrite patch_requests_app, app_nil_r in Hmake.
  rewrite (bind_ok _ _ _ _ _ Hmake). clear Hmake.
  set (answer := api_patch E (length (patch_requests (trace w))) n).
  rewrite !log_log.
  destruct (updated answer); rewrite (bind_ok _ _ _ _ _ (print_run _ _)), log_log;
    match goal with |- context [process_each E self rest ?c ?w1] =>
      destruct (IH c w1) as (w' & -> & Hin & Hpatch) end;
    exists w'; simpl in *; rewrite !patch_requests_app in *; simpl in *;
    rewrite ?app_nil_r, ?length_app in *; simpl in *;
    rewrite Nat.add_1_r in *; (split; [f_equal; f_equal; lia|]);
    (split; [done|]); by rewrite Hpatch, <- app_assoc.
Qed.

End WithEnvironment.

End Runs.

(** ** The control flow of [main] *)

Module Control.
Import Logic Footprints Runs.

Lemma for_each_bullets repo_names w :
  for_each (λ n, print (MsgBullet n)) repo_names w
  = (Ok tt, log w (List.map (λ n, Print (MsgBullet n)) repo_names)).
Proof.
  revert w. induction repo_names as [|n rest IH]; intros w; simpl.
  - by rewrite log_nil.
  - rewrite (bind_ok _ _ _ _ _ (print_run _ w)), IH. by rewrite log_log.
Qed.

(** [confirm_action] on a non-empty list: the announcement, then one read. *)
Lemma confirm_action_run self repo_names w :
  repo_names ≠ [] →
  let w1 := log w (Print (MsgAboutTo (length repo_names))
                     :: List.map (λ n, Print (MsgBullet n)) repo_names) in
  confirm_action self repo_names w =
  match stdin w with
  | [] => (Raise EOFError, w1)
  | CtrlC :: rest => (Raise KeyboardInterrupt, {| stdin := rest; trace := trace w1 |})
  | Line s :: rest =>
      (Ok (affirmative ["yes"; "y"] s),
       {| stdin := rest; trace := trace w1 ++ [Read AskConfirm s] |})
  end.
Proof.
  intros Hne. unfold confirm_action. destruct repo_names as [|n rest]; [done|].
  rewrite (bind_ok _ _ _ _ _ (print_run _ w)).
  rewrite (bind_ok _ _ _ _ _ (for_each_bullets _ _)), log_log.
  unfold mbind, M_bind, bind, input. simpl.
  by destruct (stdin w) as [|[s|] keys].
Qed.

Lemma confirm_action_obeys self repo_names :
  obeys confirmation_footprint console_exn (confirm_action self repo_names).
Proof. unfold confirm_action. destruct repo_names; obeys_auto. Qed.

Section WithEnvironment.
Context (E : environment).

(** [process_repos] on a non-empty list: one update request per name, in
    order, whatever the earlier ones answered; then the summary. *)
Lemma process_repos_run self repo_names w :
  repo_names ≠ [] →
  ∃ w', process_repos E self repo_names w = (Ok tt, w') ∧
        stdin w' = stdin w ∧
        patch_requests (trace w')
        = patch_requests (trace w)
          ++ List.map (λ n, Send (PatchRepo (username self) n)) repo_names ∧
        last (trace w')
        = Some (Print (MsgSummary
                         (successes E (length (patch_requests (trace w))) repo_names)
                         (length repo_names))).
Proof.
  intros Hne. unfold process_repos. destruct repo_names as [|n rest]; [done|].
  set (names := n :: rest) in *.
  rewrite (bind_ok _ _ _ _ _ (print_run _ w)).
  destruct (process_each_run E self names 0 (log w [Print (MsgMaking (length names))]))
    as (w1 & Hrun & Hin & Hpatch).
  rewrite (bind_ok _ _ _ _ _ Hrun), print_run. clear Hrun.
  unfold log in *. cbn [trace stdin] in *.
  rewrite patch_requests_app in *.
  change (patch_requests [Print ?m]) with (@nil event) in *.
  rewrite app_nil_r in *.
  eexists. split; [done|]. cbn [trace stdin].
  rewrite patch_requests_app, last_snoc.
  change (patch_requests [Print ?m]) with (@nil event). by rewrite app_nil_r.
Qed.




End WithEnvironment.

Lemma credentials_quiet ev : credentials_footprint ev = true → before_confirmation ev = true.
Proof. by destruct ev as [|[]|[]|]. Qed.

Lemma authentication_quiet ev :
  authentication_footprint ev = true → before_confirmation ev = true.
Proof. by destruct ev as [|[]|[]|]. Qed.

Lemma listing_quiet ev : listing_footprint ev = true → before_confirmation ev = true.
Proof. by destruct ev as [|[]|[]|]. Qed.

Lemma selection_quiet ev : selection_footprint ev = true → before_confirmation ev = true.
Proof. by destruct ev as [|[]|[]|]. Qed.

(** One stage of [main] before the confirmation: it is passed, or the run
    ends in it. *)
Lemma stage {A B} f g (m : M A) (k : A → M B) w0 w out w' :
  obeys f g m → (∀ ev, f ev = true → before_confirmation ev = true) →
  extends before_confirmation w0 w →
  (m ≫= k) w = (out, w') →
  (∃ a w1, m w = (Ok a, w1) ∧ extends before_confirmation w0 w1 ∧ k a w1 = (out, w')) ∨
  (extends before_confirmation w0 w' ∧
   ((∃ e, out = Raise e ∧ g e = true) ∨ out = OutOfFuel)).
Proof.
  intros Hm Hf Hw0 Hrun.
  assert (∀ r w1, m w = (r, w1) → extends before_confirmation w0 w1) as Hext.
  { intros r w1 Hmw. eapply extends_trans; [exact Hw0|].
    eapply extends_weaken; [exact Hf|]. by eapply obeys_extends. }
  apply bind_cases in Hrun as [(a & w1 & Hmw & Hk)|[(e & Hmw & ->)|[Hmw ->]]].
  - left. exists a, w1. eauto.
  - right. split; [by eapply Hext|]. left. exists e. split; [done|].
    by eapply obeys_raises.
  - right. split; [by eapply Hext|]. by right.
Qed.

(** The ways through the [try] block of [main]: it stops before line 293
    without leaving through [sys.exit]; or it leaves through [sys.exit(1)]
    at one of the two checks; or it gets to line 293. *)
Lemma main_body_cases E fuel a w out w' :
  main_body E fuel a w = (out, w') →
  (extends before_confirmation w w' ∧ ∀ code, out ≠ Raise (SystemExit code)) ∨
  (extends before_confirmation w w' ∧ out = Raise (SystemExit 1) ∧
   (credentials_missing E w ∨ authentication_fails E w)) ∨
  (∃ self selected_repos w5,
      reaches_selection E fuel a w self selected_repos w5 ∧
      extends before_confirmation w w5 ∧
      conclude E self selected_repos w5 = (out, w')).
Proof.
  unfold main_body. intros Hrun.
  eapply stage in Hrun as [([tok user] & w1 & Hcred & Hw1 & Hrun)|[Hw' Hout]];
    [| |apply get_credentials_obeys|apply credentials_quiet|apply extends_refl].
  2: { left. split; [done|]. intros code.
       destruct Hout as [(e & -> & He)| ->]; [|done]. intros [= ->]. done. }
  cbn beta iota in Hrun.
  destruct (negb (PyStr.truthy tok) || negb (PyStr.truthy user)) eqn:Hmissing.
  { rewrite (bind_ok _ _ _ _ _ (print_run _ w1)) in Hrun. injection Hrun as <- <-.
    right. left. split; [|split; [done|]].
    - eapply extends_trans; [exact Hw1|]. apply extends_log. by repeat constructor.
    - left. exists tok, user, w1. split; [done|].
      apply orb_true_iff in Hmissing as [H|H]; apply negb_true_iff in H; auto. }
  apply orb_false_iff in Hmissing as [Htok Huser].
  apply negb_false_iff in Htok. apply negb_false_iff in Huser.
  set (self := {| token := tok; username := user |}) in *.
  eapply stage in Hrun as [(ok & w2 & Hauth & Hw2 & Hrun)|[Hw' Hout]];
    [| |apply test_authentication_obeys|apply authentication_quiet|exact Hw1].
  2: { left. split; [done|]. intros code.
       destruct Hout as [(e & -> & He)| ->]; [|done]. intros [= ->]. done. }
  destruct ok; cbn [negb] in Hrun; cycle 1.
  { injection Hrun as <- <-. right. left. split; [done|]. split; [done|].
    right. exists self, w2, w1. done. }
  eapply stage in Hrun as [(repos & w3 & Hlist & Hw3 & Hrun)|[Hw' Hout]];
    [| |apply get_public_repos_obeys|apply listing_quiet|exact Hw2].
  2: { left. split; [done|]. intros code.
       destruct Hout as [(e & -> & He)| ->]; done. }
  eapply stage in Hrun as [([] & w4 & Hdisplay & Hw4 & Hrun)|[Hw' Hout]];
    [| |apply display_repos_obeys|apply listing_quiet|exact Hw3].
  2: { left. split; [done|]. intros code.
       destruct Hout as [(e & -> & He)| ->]; done. }
  destruct (arg_list a) eqn:Hlistonly.
  { rewrite print_run in Hrun. injection Hrun as <- <-. left. split; [|done].
    eapply extends_trans; [exact Hw4|]. apply extends_log. by repeat constructor. }
  eapply stage in Hrun as [(selected & w5 & Hsel & Hw5 & Hrun)|[Hw' Hout]];
    [| |apply select_repos_obeys|apply selection_quiet|exact Hw4].
  2: { left. split; [done|]. intros code.
       destruct Hout as [(e & -> & He)| ->]; [|done]. intros [= ->]. done. }
  right. right. exists self, selected, w5. split; [|done].
  exists w2, repos, w3, w4. split; [|done]. by exists w1.
Qed.

(** A run that gets to line 293 ends as [conclude] does. *)
Lemma main_body_concludes E fuel a w self selected_repos w5 :
  reaches_selection E fuel a w self selected_repos w5 →
  main_body E fuel a w = conclude E self selected_repos w5.
Proof.
  intros (w2 & repos & w3 & w4 & (w1 & Hcred & Htok & Huser & Hauth)
          & Hlist & Hdisplay & Hnolist & Hsel).
  unfold main_body. destruct self as [tok user]. simpl in *.
  rewrite (bind_ok _ _ _ _ _ Hcred). cbn beta iota. rewrite Htok, Huser. cbn [negb orb].
  rewrite (bind_ok _ _ _ _ _ Hauth). cbn [negb].
  rewrite (bind_ok _ _ _ _ _ Hlist), (bind_ok _ _ _ _ _ Hdisplay), Hnolist.
  by rewrite (bind_ok _ _ _ _ _ Hsel).
Qed.

Lemma reaches_selection_quiet E fuel a w self selected_repos w5 :
  reaches_selection E fuel a w self selected_repos w5 →
  extends before_confirmation w w5.
Proof.
  intros (w2 & repos & w3 & w4 & (w1 & Hcred & Htok & Huser & Hauth)
          & Hlist & Hdisplay & Hnolist & Hsel).
  eapply extends_trans; [|eapply extends_weaken;
    [apply selection_quiet | eapply obeys_extends; [apply select_repos_obeys | exact Hsel]]].
  eapply extends_trans; [|eapply extends_weaken;
    [apply listing_quiet | eapply obeys_extends; [apply display_repos_obeys | exact Hdisplay]]].
  eapply extends_trans; [|eapply extends_weaken;
    [apply listing_quiet | eapply obeys_extends; [apply get_public_repos_obeys | exact Hlist]]].
  eapply extends_trans; [|eapply extends_weaken;
    [apply authentication_quiet
    | eapply obeys_extends; [apply test_authentication_obeys | exact Hauth]]].
  eapply extends_weaken;
    [apply credentials_quiet | eapply obeys_extends; [apply get_credentials_obeys | exact Hcred]].
Qed.

End Control.

(** ** The claims *)

Import Logic Footprints Runs.

(** C6. [test_authentication] returns [True] exactly when the current-user
    response has status 200 and carries a login; on every other status and
    on a transport failure it returns [False] without raising; and when it
    returns [False], [main] ends with status 1 having sent no list request
    and no update. *)
Theorem authentication_gate (E : environment) (self : manager) :
  (∀ w, (test_authentication E self w).1 = Ok true
        ↔ ∃ login, api_user E = Response 200 (Some login)) ∧
  (∀ w, api_user E = ConnectionError
        ∨ (∃ status_code user_data,
              api_user E = Response status_code user_data ∧ status_code ≠ 200) →
        ∃ w', test_authentication E self w = (Ok false, w')) ∧
  (∀ fuel a w w',
      authentication E (log w [Print MsgBanner]) self false w' →
      main E fuel a w = (Ok 1, w') ∧
      ∃ evs, trace w' = trace w ++ evs ∧ Forall (λ ev, before_listing ev = true) evs).
Proof.
  split; [|split].
  - intros w. rewrite test_authentication_run. split.
    + destruct (api_user E) as [|status_code [login|]]; simpl; [done|..].
      * destruct (status_code =? 200) eqn:Hs; [|done].
        apply Z.eqb_eq in Hs as ->. by exists login.
      * by destruct (status_code =? 200).
    + by intros (login & ->).
  - intros w Hfail. rewrite test_authentication_run.
    destruct Hfail as [->|(status_code & user_data & -> & Hne)]; [by eexists|].
    apply Z.eqb_neq in Hne as ->. by eexists.
  - intros fuel a w w2 (w1 & Hcred & Htok & Huser & Hauth). split.
    + unfold main. rewrite (bind_ok _ _ _ _ _ (print_run _ w)).
      unfold main_body. rewrite (bind_ok _ _ _ _ _ Hcred). simpl.
      rewrite Htok, Huser. simpl. destruct self as [tok user]. simpl in *.
      by rewrite (bind_ok _ _ _ _ _ Hauth).
    + destruct (get_credentials_obeys E _ _ _ Hcred) as [(evs1 & Ht1 & Hf1) _].
      destruct (test_authentication_obeys E self _ _ _ Hauth) as [(evs2 & Ht2 & Hf2) _].
      exists (Print MsgBanner :: evs1 ++ evs2). split.
      * rewrite Ht2, Ht1. simpl. by rewrite <- !app_assoc.
      * constructor; [done|]. apply Forall_app. split.
        -- eapply Forall_impl; [exact Hf1|]. intros ev Hev. unfold before_listing.
           by rewrite Hev.
        -- eapply Forall_impl; [exact Hf2|]. intros ev Hev. unfold before_listing.
           by rewrite Hev, orb_true_r.
Qed.

(** A run against an API that answers the current-user request with 401. *)
Lemma authentication_gate_witness :
  (∃ w', test_authentication (Sample.with_user Sample.env (Response 401 None)) Sample.me
           (Sample.console []) = (Ok false, w')) ∧
  main (Sample.with_user Sample.env (Response 401 None)) 3 Sample.interactive
    (Sample.console [])
  = (Ok 1, log (Sample.console [])
             [Print MsgBanner; Send GetUser; Print (MsgAuthFailed 401)]).
Proof.
  pose proof (authentication_gate (Sample.with_user Sample.env (Response 401 None)) Sample.me)
    as (_ & Hfalse & Hmain).
  split.
  - apply Hfalse. right. exists 401, None. split; [reflexivity | discriminate].
  - apply Hmain. eexists. repeat split; reflexivity.
Defined.

Import Control.



(** C10. For the empty list [confirm_action] returns [False] without
    reading from the console and [process_repos] sends nothing; and every
    run of [main] that gets to line 293 with an empty selection prints
    the cancellation and ends with status 0, having sent no update. *)
Theorem empty_selection_is_cancelled (E : environment) (self : manager) :
  (∀ w, confirm_action self [] w = (Ok false, w)) ∧
  (∀ w, process_repos E self [] w = (Ok tt, log w [Print MsgNoneSelected])) ∧
  (∀ w, conclude E self [] w = (Ok tt, log w [Print MsgOperationCancelled])) ∧
  (∀ fuel a w w5,
      reaches_selection E fuel a (log w [Print MsgBanner]) self [] w5 →
      main E fuel a w = (Ok 0, log w5 [Print MsgOperationCancelled]) ∧
      patch_requests (trace (log w5 [Print MsgOperationCancelled]))
      = patch_requests (trace w)).
Proof.
  repeat split; try done.
  - unfold main. rewrite (bind_ok _ _ _ _ _ (print_run _ w)).
    by rewrite (main_body_concludes _ _ _ _ _ _ _ H).
  - apply reaches_selection_quiet in H as (evs & Ht & Hf).
    cbn [log trace] in *. rewrite Ht, <- !app_assoc, !patch_requests_app.
    rewrite (patch_requests_none before_confirmation evs); [|by intros [| []|[]|]|done].
    simpl. by rewrite app_nil_r.
Qed.

(** The user answers [quit] at the selection prompt. *)
Lemma empty_selection_is_cancelled_witness :
  main Sample.env 3 Sample.interactive (Sample.console [Line "quit"])
  = (Ok 0,
     log {| stdin := [];
            trace := [Print MsgBanner; Send GetUser; Print (MsgAuthenticated "u");
                      Print MsgFetching; Send (ListRepos 1); Send (ListRepos 2);
                      Print (MsgFound 3); Print MsgRule;
                      Print (MsgRow 1 "a" 0 0 "2024-05-01");
                      Print (MsgRow 2 "b" 0 0 "2024-05-01");
                      Print (MsgRow 3 "c" 0 0 "2024-05-01");
                      Print MsgRule; Print MsgSelectionOptions;
                      Read AskSelection "quit"] |}
       [Print MsgOperationCancelled]).
Proof.
  apply (empty_selection_is_cancelled Sample.env Sample.me).
  exists (log (Sample.console [Line "quit"])
            [Print MsgBanner; Send GetUser; Print (MsgAuthenticated "u")]).
  exists Sample.three. eexists. eexists.
  split; [eexists; repeat split; reflexivity|].
  repeat split; reflexivity.
Defined.



(** The requests sent for the names of a selection. *)
Lemma passes_2xx status_code : 200 <= status_code < 300 → passes status_code = true.
Proof. intros H. apply passes_iff. lia. Qed.

(** C5, as the script has it. [make_repo_private] never raises; it returns
    [True] exactly when a response arrives whose status is not 4xx or 5xx,
    so on every 2xx, and [False] on 4xx, on 5xx and on a transport failure.
    [process_repos] requests the update of every selected name in order,
    whatever the earlier requests returned, and its last line reports the
    number of requests that returned [True] out of the number selected. *)
Theorem update_outcomes (E : environment) (self : manager) :
  (∀ repo_name w,
      let answer := api_patch E (length (patch_requests (trace w))) repo_name in
      (∃ w', make_repo_private E self repo_name w = (Ok (updated answer), w')) ∧
      (updated answer = true
       ↔ ∃ status_code body, answer = Response status_code body
                             ∧ ¬ (400 <= status_code < 600))) ∧
  (∀ status_code body, 200 <= status_code < 300 →
                       updated (Response status_code body) = true) ∧
  (∀ status_code body, 400 <= status_code < 600 →
                       updated (Response status_code body) = false) ∧
  updated ConnectionError = false ∧
  (∀ repo_names w,
      repo_names ≠ [] →
      ∃ w', process_repos E self repo_names w = (Ok tt, w') ∧
            patch_requests (trace w')
            = patch_requests (trace w)
              ++ List.map (λ n, Send (PatchRepo (username self) n)) repo_names ∧
            last (trace w')
            = Some (Print (MsgSummary
                             (successes E (length (patch_requests (trace w))) repo_names)
                             (length repo_names)))).
Proof.
  split; [|split; [|split; [|split]]].
  - intros repo_name w answer. split; [|split].
    + rewrite make_repo_private_run. by eexists.
    + destruct answer as [|status_code body]; simpl; [done|].
      intros Hp. exists status_code, body. split; [done|]. by apply passes_iff.
    + intros (status_code & body & -> & Hp). simpl. by apply passes_iff.
  - intros status_code body H. by apply passes_2xx.
  - intros status_code body H. simpl. apply not_true_iff_false. rewrite passes_iff. tauto.
  - done.
  - intros repo_names w Hne.
    destruct (process_repos_run E self repo_names w Hne) as (w' & ? & _ & ? & ?).
    by exists w'.
Qed.

(** Three updates, the second of which is answered with 404. *)
Lemma update_outcomes_witness :
  ∃ w', process_repos
          (with_patch Sample.env
             (λ _ n, if String.eqb n "b" then Response 404 tt else Response 200 tt))
          Sample.me ["a"; "b"; "c"] (Sample.console [])
        = (Ok tt, w') ∧
        patch_requests (trace w')
        = [Send (PatchRepo "u" "a"); Send (PatchRepo "u" "b"); Send (PatchRepo "u" "c")] ∧
        last (trace w') = Some (Print (MsgSummary 2 3)).
Proof.
  destruct (update_outcomes
              (with_patch Sample.env
                 (λ _ n, if String.eqb n "b" then Response 404 tt else Response 200 tt))
              Sample.me) as (_ & _ & _ & _ & Hprocess).
  destruct (Hprocess ["a"; "b"; "c"] (Sample.console []) ltac:(discriminate))
    as (w' & Hrun & Hpatch & Hlast).
  exists w'. split; [exact Hrun|]. split; [exact Hpatch | exact Hlast].
Defined.

(** C5 as stated fails: a response with status 304 is not 2xx, and
    [make_repo_private] returns [True] on it. *)
Lemma update_true_without_2xx :
  api_patch (with_patch Sample.env (λ _ _, Response 304 tt)) 0 "a" = Response 304 tt ∧
  (make_repo_private (with_patch Sample.env (λ _ _, Response 304 tt)) Sample.me "a"
     (Sample.console [])).1 = Ok true ∧
  ¬ (200 <= 304 < 300).
Proof. repeat split; try reflexivity. lia. Qed.









(** ** Pagination *)

Lemma filter_owned self l :
  List.filter (owned self) l = filter (λ r, owner_login r = Some (username self)) l.
Proof.
  induction l as [|r l IH]; simpl; [done|]. unfold owned at 1.
  rewrite filter_cons. case_bool_decide; case_decide; try done. by rewrite IH.
Qed.

Section Pagination.
Context (E : environment) (self : manager).

Lemma fetch_pages_next fuel page repos w status_code items :
  api_list E page = Response status_code items → passes status_code = true →
  items ≠ [] →
  fetch_pages E (S fuel) self page repos w
  = fetch_pages E fuel self (page + 1) (repos ++ List.filter (owned self) items)
      (log w [Send (ListRepos page)]).
Proof.
  intros Hanswer Hpass Hitems. cbn [fetch_pages].
  unfold try_except, perform, raise_for_status, mbind, M_bind, bind.
  rewrite Hanswer. simpl. apply negb_true_iff in Hpass. rewrite Hpass. simpl.
  by destruct items.
Qed.

Lemma fetch_pages_empty fuel page repos w status_code :
  api_list E page = Response status_code [] → passes status_code = true →
  fetch_pages E (S fuel) self page repos w = (Ok repos, log w [Send (ListRepos page)]).
Proof.
  intros Hanswer Hpass. cbn [fetch_pages].
  unfold try_except, perform, raise_for_status, mbind, M_bind, bind.
  rewrite Hanswer. simpl. apply negb_true_iff in Hpass. by rewrite Hpass.
Qed.

Lemma fetch_pages_error fuel page repos w :
  request_error (api_list E page) →
  fetch_pages E (S fuel) self page repos w
  = (Ok repos, log w [Send (ListRepos page); Print MsgFetchError]).
Proof.
  intros Herror. cbn [fetch_pages].
  unfold try_except, perform, raise_for_status, mbind, M_bind, bind, log.
  destruct Herror as [->|(status_code & body & -> & Hs)]; simpl.
  - by rewrite <- app_assoc.
  - assert ((400 <=? status_code) && (status_code <? 600) = true) as ->.
    { apply andb_true_iff. split; [apply Z.leb_le | apply Z.ltb_lt]; lia. }
    simpl. by rewrite <- app_assoc.
Qed.

Lemma delivers_tail first items pages :
  delivers E first (items :: pages) → delivers E (first + 1) pages.
Proof.
  intros H i p Hp. destruct (H (S i) p Hp) as (Hne & status_code & Hanswer & Hpass).
  split; [done|]. exists status_code. split; [|done]. rewrite <- Hanswer. f_equal. lia.
Qed.

Lemma list_requests_cons first count :
  list_requests first (S count) = Send (ListRepos first) :: list_requests (first + 1) count.
Proof.
  unfold list_requests. simpl. rewrite Z.add_0_r. f_equal.
  rewrite <- seq_shift, List.map_map. apply map_ext. intros i. do 2 f_equal. lia.
Qed.

(** The pages delivered are accumulated until the page after them ends
    the loop with the events [last_events]. *)
Lemma fetch_pages_run pages last_events :
  ∀ fuel page repos w,
    delivers E page pages →
    (∀ fuel' repos' w',
        fetch_pages E (S fuel') self (page + Z.of_nat (length pages)) repos' w'
        = (Ok repos',
           log w' (Send (ListRepos (page + Z.of_nat (length pages))) :: last_events))) →
    (length pages < fuel)%nat →
    fetch_pages E fuel self page repos w
    = (Ok (repos ++ owned_of self pages),
       log w (list_requests page (S (length pages)) ++ last_events)).
Proof.
  induction pages as [|items pages IH]; intros fuel page repos w Hpages Hlast Hfuel.
  - destruct fuel as [|fuel]; [simpl in Hfuel; lia|].
    specialize (Hlast fuel repos w). cbn [length Z.of_nat] in Hlast.
    rewrite Z.add_0_r in Hlast.
    rewrite Hlast. unfold owned_of, list_requests. simpl.
    by rewrite app_nil_r, !Z.add_0_r.
  - destruct fuel as [|fuel]; [simpl in Hfuel; lia|].
    destruct (Hpages 0%nat items eq_refl) as (Hne & status_code & Hanswer & Hpass).
    rewrite Z.add_0_r in Hanswer.
    rewrite (fetch_pages_next _ _ _ _ _ _ Hanswer Hpass Hne).
    rewrite (IH fuel (page + 1) _ _ (delivers_tail _ _ _ Hpages)).
    + rewrite log_log, filter_owned. cbn [length].
      rewrite (list_requests_cons page (S (length pages))).
      unfold owned_of. cbn [List.map concat length]. by rewrite <- app_assoc.
    + intros fuel' repos' w'.
      replace (page + 1 + Z.of_nat (length pages))
        with (page + Z.of_nat (length (items :: pages))) by (simpl; lia).
      apply Hlast.
    + simpl in Hfuel. lia.
Qed.

End Pagination.

Lemma owned_of_elem self pages r :
  r ∈ owned_of self pages
  ↔ ∃ items, items ∈ pages ∧ r ∈ items ∧ owner_login r = Some (username self).
Proof.
  unfold owned_of. rewrite list_elem_of_In, in_concat. split.
  - intros (l & Hl & Hr). apply in_map_iff in Hl as (items & <- & Hitems).
    apply list_elem_of_In, list_elem_of_filter in Hr as [Howner Hr].
    exists items. by rewrite list_elem_of_In.
  - intros (items & Hitems & Hr & Howner).
    exists (filter (λ r, owner_login r = Some (username self)) items). split.
    + apply in_map. by apply list_elem_of_In.
    + apply list_elem_of_In, list_elem_of_filter. done.
Qed.

(** C2. When the list endpoint delivers the non-empty pages [pages] and
    then a page of zero items, [get_public_repos] returns, given fuel for
    one more request than there are pages; the request of the empty page is
    its last; and it returns the repositories of the pages whose owner
    login is the configured username, page after page in order, and no
    other. *)
Theorem listing_concatenates_owned_pages (E : environment) (self : manager)
    (pages : list (list repo)) (fuel : nat) (w : world) :
  delivers E 1 pages →
  (∃ status_code, api_list E (1 + Z.of_nat (length pages)) = Response status_code []
                  ∧ passes status_code = true) →
  (length pages < fuel)%nat →
  get_public_repos E fuel self w
  = (Ok (owned_of self pages),
     log w (Print MsgFetching :: list_requests 1 (S (length pages)))) ∧
  (∀ r, r ∈ owned_of self pages
        ↔ ∃ items, items ∈ pages ∧ r ∈ items ∧ owner_login r = Some (username self)).
Proof.
  intros Hpages (status_code & Hempty & Hpass) Hfuel. split; [|apply owned_of_elem].
  unfold get_public_repos. rewrite (bind_ok _ _ _ _ _ (print_run _ w)).
  rewrite (fetch_pages_run E self pages []); [|done| |done].
  - by rewrite log_log, app_nil_r.
  - intros fuel' repos' w'. by eapply fetch_pages_empty.
Qed.

(** Two pages, one repository of another owner among them, then an empty
    page. *)
Lemma listing_concatenates_owned_pages_witness :
  get_public_repos
    (Sample.with_list Sample.env
       (λ page, if page =? 1 then Response 200 [Sample.mk "a" "u"; Sample.mk "z" "other"]
                else if page =? 2 then Response 200 [Sample.mk "b" "u"]
                else Response 200 []))
    5 Sample.me (Sample.console [])
  = (Ok [Sample.mk "a" "u"; Sample.mk "b" "u"],
     log (Sample.console [])
       [Print MsgFetching; Send (ListRepos 1); Send (ListRepos 2); Send (ListRepos 3)]).
Proof.
  refine (proj1 (listing_concatenates_owned_pages _ Sample.me
                   [[Sample.mk "a" "u"; Sample.mk "z" "other"]; [Sample.mk "b" "u"]]
                   5 (Sample.console []) _ _ _)).
  - intros i items Hi. destruct i as [|[|i]]; simpl in Hi; [| |discriminate];
      injection Hi as <-; (split; [discriminate|]); exists 200; split; reflexivity.
  - exists 200. split; reflexivity.
  - simpl. lia.
Defined.

(** C7. When the list endpoint delivers the non-empty pages [pages] and the
    request of the next page fails, [get_public_repos] stops at that
    request and returns what the pages before it gave: nothing is raised
    and nothing is dropped. *)
Theorem listing_keeps_pages_before_error (E : environment) (self : manager)
    (pages : list (list repo)) (fuel : nat) (w : world) :
  delivers E 1 pages →
  request_error (api_list E (1 + Z.of_nat (length pages))) →
  (length pages < fuel)%nat →
  get_public_repos E fuel self w
  = (Ok (owned_of self pages),
     log w (Print MsgFetching :: list_requests 1 (S (length pages)) ++ [Print MsgFetchError])).
Proof.
  intros Hpages Herror Hfuel.
  unfold get_public_repos. rewrite (bind_ok _ _ _ _ _ (print_run _ w)).
  rewrite (fetch_pages_run E self pages [Print MsgFetchError]); [|done| |done].
  - by rewrite log_log.
  - intros fuel' repos' w'. by apply fetch_pages_error.
Qed.

(** One page, then a 502 on the second request. *)
Lemma listing_keeps_pages_before_error_witness :
  get_public_repos
    (Sample.with_list Sample.env
       (λ page, if page =? 1 then Response 200 Sample.three else Response 502 []))
    5 Sample.me (Sample.console [])
  = (Ok Sample.three,
     log (Sample.console [])
       [Print MsgFetching; Send (ListRepos 1); Send (ListRepos 2); Print MsgFetchError]).
Proof.
  refine (listing_keeps_pages_before_error _ Sample.me [Sample.three] 5
            (Sample.console []) _ _ _).
  - intros i items Hi. destruct i as [|i]; simpl in Hi; [|discriminate].
    injection Hi as <-. split; [discriminate|]. exists 200. split; reflexivity.
  - right. exists 502, []. split; [reflexivity | lia].
  - simpl. lia.
Defined.

(** ** Batch mode *)

(** The names that [--batch] selects are the given names that were fetched. *)
Lemma batch_selection_elem batch repos n :
  n ∈ batch_selection batch repos
  ↔ n ∈ List.map PyStr.strip (PyStr.split "," batch) ∧ n ∈ List.map name repos.
Proof.
  unfold batch_selection. rewrite !list_elem_of_In, filter_In, bool_decide_eq_true.
  by rewrite elem_of_list_to_set, !list_elem_of_In.
Qed.

(** The names reported missing are the given names that were not fetched. *)
Lemma batch_missing_elem batch repos n :
  n ∈ batch_missing batch repos
  ↔ n ∈ List.map PyStr.strip (PyStr.split "," batch) ∧ n ∉ List.map name repos.
Proof.
  unfold batch_missing. rewrite elem_of_difference, !elem_of_list_to_set.
  rewrite batch_selection_elem. tauto.
Qed.

(** C3 fails on a name given twice: [--batch a,a] selects [a] twice, the
    confirmation counts two repositories and two update requests go out for
    the one repository. *)
Theorem batch_keeps_duplicates :
  batch_selection "a,a" Sample.three = ["a"; "a"] ∧
  ¬ NoDup (batch_selection "a,a" Sample.three) ∧
  patch_requests
    (trace (main Sample.env 3 (Sample.batch "a,a") (Sample.console [Line "yes"])).2)
  = [Send (PatchRepo "u" "a"); Send (PatchRepo "u" "a")] ∧
  last (trace (main Sample.env 3 (Sample.batch "a,a") (Sample.console [Line "yes"])).2)
  = Some (Print (MsgSummary 2 2)).
Proof.
  assert (batch_selection "a,a" Sample.three = ["a"; "a"]) as Hsel by (by vm_compute).
  split; [done|]. split; [|split; by vm_compute].
  rewrite Hsel. intros Hnodup. apply NoDup_cons in Hnodup as [Hnotin _].
  apply Hnotin. by left.
Qed.

(** ** Interactive selection *)

Import SelectionFacts.






(** * Further properties of the script *)

(** ** The selection prompt *)

Lemma selection_turn_rejected repos line :
  rejected line → selection_turn repos line = inl ValueError.
Proof.
  intros (Hquit & Hall & part & Hpart & Hbad). unfold selection_turn.
  apply String.eqb_neq in Hquit. apply String.eqb_neq in Hall. rewrite Hquit, Hall.
  by rewrite (select_parts_malformed _ _ _ Hpart Hbad).
Qed.


(** X1. The keywords of the selection prompt, in any case and with blanks
    around them: [quit] returns the empty list; [all] returns the name of
    every listed repository in the order of the listing, the very list
    that [--all] selects. *)
Theorem selection_keywords (self : manager) (repos : list repo)
    (line : string) (rest : list key) (tr : list event) (a : args) :
  repos ≠ [] →
  let w := {| stdin := Line line :: rest; trace := tr |} in
  let w' := {| stdin := rest;
               trace := tr ++ [Print MsgSelectionOptions; Read AskSelection line] |} in
  (PyStr.lower (PyStr.strip line) = "quit" →
   interactive_selection self repos w = (Ok [], w')) ∧
  (PyStr.lower (PyStr.strip line) = "all" →
   interactive_selection self repos w = (Ok (List.map name repos), w') ∧
   (arg_all a = true → ∀ w0, (select_repos a self repos w0).1 = Ok (List.map name repos))).
Proof.
  intros Hrepos w w'. unfold interactive_selection.
  destruct repos as [|r repos]; [done|].
  rewrite (bind_ok _ _ _ _ _ (print_run _ _)).
  cbn [w log stdin trace selection_loop]. unfold selection_turn. split.
  - intros ->. cbn [String.eqb]. unfold w'. by rewrite <- app_assoc.
  - intros ->. split.
    + unfold w'. by rewrite <- app_assoc.
    + intros Hall w0. unfold select_repos. by rewrite Hall.
Qed.

Lemma selection_keywords_witness :
  interactive_selection Sample.me Sample.three (Sample.console [Line " Quit "])
  = (Ok [], {| stdin := [];
               trace := [Print MsgSelectionOptions; Read AskSelection " Quit "] |}) ∧
  interactive_selection Sample.me Sample.three (Sample.console [Line "ALL"])
  = (Ok ["a"; "b"; "c"],
     {| stdin := []; trace := [Print MsgSelectionOptions; Read AskSelection "ALL"] |}).
Proof.
  split.
  - apply (selection_keywords Sample.me Sample.three " Quit " [] [] Sample.interactive);
      [discriminate | reflexivity].
  - apply (selection_keywords Sample.me Sample.three "ALL" [] [] Sample.interactive);
      [discriminate | reflexivity].
Defined.


Lemma misshapen_malformed part : misshapen (PyStr.strip part) → malformed part.
Proof.
  intros Hshape Hwf. unfold well_formed in Hwf. cbv zeta in Hwf.
  destruct Hshape as [Hempty|(a & b & Hp & Ha & Hshape)].
  - rewrite Hempty in Hwf. destruct Hwf as [[_ [z Hz]]|(a & b & Hab & _)]; [done|].
    by destruct a.
  - rewrite Hp in Hwf.
    destruct Hwf as [[Hdash _]|(a' & b' & Hab & Ha' & Hb' & [za Hza] & [zb Hzb])].
    { by rewrite contains_sep in Hdash. }
    assert (a :: PyStr.split "-" b = [a'; b']) as [= <- Hb].
    { rewrite <- (PyStrFacts.split_app "-" a b), Hab by done. by apply split_two. }
    assert (b = b') as <-.
    { destruct (PyStrFacts.split_join "-" b) as [Hjoin _]. rewrite Hb in Hjoin.
      by rewrite <- Hjoin. }
    destruct Hshape as [Hblank|[Hblank|Hdash]].
    + unfold PyStr.int in Hza. by rewrite Hblank in Hza.
    + unfold PyStr.int in Hzb. by rewrite Hblank in Hzb.
    + congruence.
Qed.

Lemma misshapen_not_keyword selection part :
  part ∈ PyStr.split "," selection → misshapen (PyStr.strip part) →
  selection ≠ "quit" ∧ selection ≠ "all".
Proof.
  intros Hpart Hshape.
  assert (∀ kw, PyStr.split "," kw = [kw] → PyStr.strip kw = kw → kw ≠ "" →
                PyStr.contains "-" kw = false → selection ≠ kw) as Hkw.
  { intros kw Hsplit Hstrip Hne Hdash ->. rewrite Hsplit in Hpart.
    apply list_elem_of_singleton in Hpart as ->. rewrite Hstrip in Hshape.
    destruct Hshape as [?|(a & b & -> & _)]; [done|]. by rewrite contains_sep in Hdash. }
  split; by apply Hkw.
Qed.

Lemma misshapen_rejected line part :
  part ∈ PyStr.split "," (PyStr.lower (PyStr.strip line)) →
  misshapen (PyStr.strip part) → rejected line.
Proof.
  intros Hpart Hshape.
  destruct (misshapen_not_keyword _ _ Hpart Hshape) as [Hquit Hall].
  split; [done|]. split; [done|]. exists part. split; [done|].
  by apply misshapen_malformed.
Qed.

(** X3. A line is rejected as soon as one of its tokens is empty (an empty
    line, a doubled or a trailing comma), or opens or closes with a dash (a
    negative number, a span without a bound), or holds two dashes: the whole
    line is dropped and the next one is read. *)
Theorem misshapen_token_rejects_line (self : manager) (repos : list repo)
    (line part : string) (rest : list key) (tr : list event) :
  repos ≠ [] →
  part ∈ PyStr.split "," (PyStr.lower (PyStr.strip line)) →
  misshapen (PyStr.strip part) →
  interactive_selection self repos {| stdin := Line line :: rest; trace := tr |}
  = selection_loop repos rest
      (tr ++ [Print MsgSelectionOptions; Read AskSelection line;
              Print MsgInvalidSelection]).
Proof.
  intros Hrepos Hpart Hshape. unfold interactive_selection.
  destruct repos as [|r repos]; [done|].
  rewrite (bind_ok _ _ _ _ _ (print_run _ _)). cbn [log stdin trace selection_loop].
  rewrite (selection_turn_rejected (r :: repos) line) by (by eapply misshapen_rejected).
  by rewrite <- !app_assoc.
Qed.

(** The second token of [3,-1] is a negative number; the next line is read. *)
Lemma misshapen_token_rejects_line_witness :
  interactive_selection Sample.me Sample.three (Sample.console [Line "3,-1"; Line "3"])
  = (Ok ["c"],
     {| stdin := [];
        trace := [Print MsgSelectionOptions; Read AskSelection "3,-1";
                  Print MsgInvalidSelection; Read AskSelection "3"] |}).
Proof.
  unfold Sample.console.
  rewrite (misshapen_token_rejects_line Sample.me Sample.three "3,-1" "-1");
    [reflexivity | discriminate | |].
  - vm_compute. apply list_elem_of_In. right. left. reflexivity.
  - right. exists "", "1". repeat split; try reflexivity. left. reflexivity.
Defined.


(** ** The listing *)

Lemma display_rows_run i repos w :
  ∃ evs, display_rows i repos w = (Ok tt, log w evs) ∧
         ∀ j n s f u,
           Print (MsgRow j n s f u) ∈ evs
           ↔ ∃ k r, repos !! k = Some r ∧ j = (i + k)%nat ∧ n = name r ∧
                    s = stargazers_count r ∧ f = forks_count r ∧
                    u = String.substring 0 10 (updated_at r).
Proof.
  revert i w. induction repos as [|r repos IH]; intros i w.
  - exists []. split; [by rewrite log_nil|]. intros j n s f u. split.
    + by intros ?%elem_of_nil.
    + by intros (k & r & ? & _).
  - cbn [display_rows]. rewrite (bind_ok _ _ _ _ _ (print_run _ w)).
    destruct (IH (S i) (log w [Print (MsgRow i (name r) (stargazers_count r)
                                       (forks_count r)
                                       (String.substring 0 10 (updated_at r)))]))
      as (evs & -> & Hevs).
    eexists. split; [by rewrite log_log|]. intros j n s f u.
    cbn [app]. rewrite elem_of_cons, Hevs. split.
    + intros [[= -> -> -> -> ->]|(k & r' & Hk & -> & Hrest)].
      * exists 0%nat, r. repeat split; try done; lia.
      * exists (S k), r'. split; [done|]. split; [lia | done].
    + intros ([|k] & r' & Hk & -> & -> & -> & -> & ->).
      * left. injection Hk as <-. by rewrite Nat.add_0_r.
      * right. exists k, r'. split; [done|]. split; [lia | done].
Qed.


(** [display_repos] returns, having printed a row for every repository
    and no other row, numbered from 1. *)
Lemma display_repos_run self repos w :
  ∃ evs, display_repos self repos w = (Ok tt, log w evs) ∧
         ∀ j n s f u,
           Print (MsgRow j n s f u) ∈ evs
           ↔ ∃ k r, repos !! k = Some r ∧ j = S k ∧ n = name r ∧
                    s = stargazers_count r ∧ f = forks_count r ∧
                    u = String.substring 0 10 (updated_at r).
Proof.
  unfold display_repos. destruct repos as [|r0 repos0] eqn:Hrepos.
  { exists [Print MsgNoPublicRepos]. split; [done|]. intros j n s f u. split.
    - intros Hin. apply list_elem_of_singleton in Hin. discriminate Hin.
    - by intros (k & r & ? & _). }
  rewrite <- Hrepos. clear Hrepos r0 repos0.
  rewrite (bind_ok _ _ _ _ _ (print_run _ _)), (bind_ok _ _ _ _ _ (print_run _ _)).
  destruct (display_rows_run 1 repos (log (log w [Print (MsgFound (length repos))])
                                        [Print MsgRule])) as (evs & Hrun & Hevs).
  rewrite (bind_ok _ _ _ _ _ Hrun), print_run, !log_log.
  eexists. split; [done|]. intros j n s f u.
  rewrite <- (Hevs j n s f u). rewrite !elem_of_app, !elem_of_cons, !elem_of_nil.
  split; [intuition discriminate | tauto].
Qed.



(** ** Credentials *)











Lemma exit_status_prints r out w' :
  exit_status r = (out, w') →
  ∃ evs, trace w' = trace r.2 ++ evs ∧ Forall (λ ev, printed ev = true) evs.
Proof.
  destruct r as [[[]|e|] w]; simpl.
  - intros [= <- <-]. exists []. by rewrite app_nil_r.
  - destruct e; intros [= <- <-]; simpl;
      first [ by (exists []; rewrite app_nil_r) | by (eexists [_]; repeat constructor) ].
  - intros [= <- <-]. exists []. by rewrite app_nil_r.
Qed.



(** ** Listing only *)

Lemma main_body_list_only E fuel a :
  arg_list a = true → obeys before_selection any_exn (main_body E fuel a).
Proof.
  intros Hlist. unfold main_body. apply obeys_bind.
  { eapply obeys_weaken; [| |apply get_credentials_obeys]; [|done].
    intros ev Hev. unfold before_selection. by rewrite Hev. }
  intros [tok user].
  destruct (negb (PyStr.truthy tok) || negb (PyStr.truthy user)); [obeys_auto|].
  apply obeys_bind.
  { eapply obeys_weaken; [| |apply test_authentication_obeys]; [|done].
    intros ev Hev. unfold before_selection. by rewrite Hev, orb_true_r. }
  intros []; cbn [negb]; [|obeys_auto].
  apply obeys_bind.
  { eapply obeys_weaken; [| |apply get_public_repos_obeys]; [|done].
    intros ev Hev. unfold before_selection. by rewrite Hev, !orb_true_r. }
  intros repos. apply obeys_bind.
  { eapply obeys_weaken; [| |apply display_repos_obeys]; [|done].
    intros ev Hev. unfold before_selection. by rewrite Hev, !orb_true_r. }
  intros _. rewrite Hlist. obeys_auto.
Qed.

(** X7. With [--list], whatever the other flags and whatever is typed,
    [main] goes no further than the listing: it asks for no selection and
    no confirmation and sends no update. *)
Theorem list_only_changes_nothing (E : environment) (fuel : nat) (a : args)
    (w : world) (out : outcome Z) (w' : world) (evs : list event) :
  arg_list a = true →
  main E fuel a w = (out, w') →
  trace w' = trace w ++ evs →
  Forall (λ ev, before_selection ev = true) evs ∧
  patch_requests evs = [] ∧
  (∀ line, (Read AskSelection line ∉ evs) ∧ (Read AskConfirm line ∉ evs)).
Proof.
  intros Hlist Hmain Htrace.
  assert (Forall (λ ev, before_selection ev = true) evs) as Hevs.
  { unfold main in Hmain. rewrite (bind_ok _ _ _ _ _ (print_run _ w)) in Hmain.
    destruct (main_body E fuel a (log w [Print MsgBanner])) as [r w2] eqn:Hbody.
    apply exit_status_prints in Hmain as (evs3 & Ht3 & Hf3). cbn [snd] in Ht3.
    destruct (main_body_list_only E fuel a Hlist _ _ _ Hbody) as [(evs2 & Ht2 & Hf2) _].
    assert (evs = Print MsgBanner :: evs2 ++ evs3) as ->.
    { rewrite Ht3, Ht2 in Htrace. cbn [log trace] in Htrace.
      rewrite <- !app_assoc in Htrace. by apply app_inv_head in Htrace. }
    constructor; [done|]. apply Forall_app. split; [done|].
    eapply Forall_impl; [exact Hf3|]. by intros []. }
  split; [done|]. split.
  - apply (patch_requests_none before_selection); [by intros [| []|[]|] | done].
  - rewrite Forall_forall in Hevs. intros line. split; intros Hin; by specialize (Hevs _ Hin).
Qed.

(** [--list] together with [--all] and [--batch], and a [yes] waiting on the
    console. *)
Lemma list_only_changes_nothing_witness :
  patch_requests
    (trace (main Sample.env 3
              {| arg_list := true; arg_batch := Some "a"; arg_all := true |}
              (Sample.console [Line "yes"])).2) = [].
Proof.
  refine (proj1 (proj2 (list_only_changes_nothing Sample.env 3
                          {| arg_list := true; arg_batch := Some "a"; arg_all := true |}
                          (Sample.console [Line "yes"]) _ _ _
                          eq_refl (surjective_pairing _) eq_refl))).
Defined.

(** ** Pagination, whatever the endpoint answers *)

(** One turn of the loop of [get_public_repos]. *)
Lemma fetch_pages_step E fuel self page repos w :
  fetch_pages E (S fuel) self page repos w =
  match api_list E page with
  | ConnectionError => (Ok repos, log w [Send (ListRepos page); Print MsgFetchError])
  | Response status_code items =>
      if passes status_code then
        match items with
        | [] => (Ok repos, log w [Send (ListRepos page)])
        | _ => fetch_pages E fuel self (page + 1) (repos ++ List.filter (owned self) items)
                 (log w [Send (ListRepos page)])
        end
      else (Ok repos, log w [Send (ListRepos page); Print MsgFetchError])
  end.
Proof.
  destruct (api_list E page) as [|status_code items] eqn:Hanswer.
  - apply fetch_pages_error. by left.
  - destruct (passes status_code) eqn:Hpass.
    + destruct items as [|r items].
      * by eapply fetch_pages_empty.
      * by eapply fetch_pages_next.
    + apply fetch_pages_error. right. exists status_code, items. split; [done|].
      apply not_true_iff_false in Hpass. rewrite passes_iff in Hpass. lia.
Qed.

(** What the loop returns beyond what it was given came from a page that
    the endpoint delivered, and passed the owner filter. *)
Lemma fetch_pages_sound E self (P : repo → Prop) :
  (∀ page status_code items r,
      1 <= page → api_list E page = Response status_code items →
      passes status_code = true → r ∈ items →
      owner_login r = Some (username self) → P r) →
  ∀ fuel page acc w repos w',
    1 <= page → Forall P acc →
    fetch_pages E fuel self page acc w = (Ok repos, w') → Forall P repos.
Proof.
  intros HP. induction fuel as [|fuel IH]; intros page acc w repos w' Hpage Hacc; [done|].
  rewrite fetch_pages_step.
  destruct (api_list E page) as [|status_code items] eqn:Hanswer; [by intros [= <- _]|].
  destruct (passes status_code) eqn:Hpass; [|by intros [= <- _]].
  destruct items as [|r0 items0] eqn:Hitems; [by intros [= <- _]|]. rewrite <- Hitems in *.
  apply IH; [lia|]. apply Forall_app. split; [done|].
  apply Forall_forall. intros r Hr.
  apply list_elem_of_In, filter_In in Hr as [Hr Howned].
  apply list_elem_of_In in Hr. unfold owned in Howned. apply bool_decide_eq_true in Howned.
  by eapply HP.
Qed.

(** X8. Whatever the list endpoint answers, every repository that
    [get_public_repos] returns was in a page that the endpoint delivered
    with a passing status, and its owner login is the configured username. *)
Theorem listed_repos_were_delivered (E : environment) (fuel : nat) (self : manager)
    (w : world) (repos : list repo) (w' : world) :
  get_public_repos E fuel self w = (Ok repos, w') →
  Forall (λ r, owner_login r = Some (username self) ∧
               ∃ page status_code items,
                 1 <= page ∧ api_list E page = Response status_code items ∧
                 passes status_code = true ∧ r ∈ items) repos.
Proof.
  unfold get_public_repos. rewrite (bind_ok _ _ _ _ _ (print_run _ w)).
  apply (fetch_pages_sound E self); [|lia|constructor].
  intros page status_code items r Hpage Hanswer Hpass Hr Howner.
  split; [done|]. by exists page, status_code, items.
Qed.

(** A second page that mixes owners, and an error on the third request. *)
Lemma listed_repos_were_delivered_witness :
  Forall (λ r, owner_login r = Some "u" ∧
               ∃ page status_code items,
                 1 <= page ∧
                 (if page =? 1 then Response 200 Sample.three
                  else if page =? 2
                       then Response 200 [Sample.mk "z" "other"; Sample.mk "d" "u"]
                       else Response 500 []) = Response status_code items ∧
                 passes status_code = true ∧ r ∈ items)
    (Sample.three ++ [Sample.mk "d" "u"]).
Proof.
  refine (listed_repos_were_delivered
            (Sample.with_list Sample.env
               (λ page, if page =? 1 then Response 200 Sample.three
                        else if page =? 2
                             then Response 200 [Sample.mk "z" "other"; Sample.mk "d" "u"]
                             else Response 500 []))
            5 Sample.me (Sample.console []) _ _ _).
  reflexivity.
Defined.




(** ** From the confirmation to the updates *)

Lemma affirmative_yes line :
  PyStr.lower (PyStr.strip line) = "yes" ∨ PyStr.lower (PyStr.strip line) = "y" →
  affirmative ["yes"; "y"] line = true.
Proof.
  intros H. unfold affirmative. apply bool_decide_eq_true.
  rewrite !elem_of_cons. tauto.
Qed.

(** [conclude] after an affirmative answer: one update request per selected
    name, in the order of the selection. *)
Lemma conclude_confirmed E self selected_repos w answer rest :
  selected_repos ≠ [] → stdin w = Line answer :: rest →
  affirmative ["yes"; "y"] answer = true →
  ∃ w', conclude E self selected_repos w = (Ok tt, w') ∧ stdin w' = rest ∧
        patch_requests (trace w')
        = patch_requests (trace w)
          ++ List.map (λ n, Send (PatchRepo (username self) n)) selected_repos.
Proof.
  intros Hne Hin Hyes. unfold conclude. destruct selected_repos as [|n0 names0] eqn:Hsel; [done|].
  rewrite <- Hsel in *. clear Hsel n0 names0.
  pose proof (confirm_action_run self selected_repos w Hne) as Hconfirm.
  cbv zeta in Hconfirm. rewrite Hin, Hyes in Hconfirm.
  rewrite (bind_ok _ _ _ _ _ Hconfirm).
  destruct (process_repos_run E self selected_repos
              {| stdin := rest;
                 trace := trace (log w (Print (MsgAboutTo (length selected_repos))
                                          :: List.map (λ n, Print (MsgBullet n))
                                               selected_repos))
                          ++ [Read AskConfirm answer] |} Hne)
    as (w' & -> & Hstdin & Hpatch & _).
  exists w'. split; [done|]. split; [done|]. rewrite Hpatch. f_equal.
  cbn [trace log]. rewrite !patch_requests_app.
  rewrite (patch_requests_none confirmation_footprint
             (_ :: List.map (λ n, Print (MsgBullet n)) selected_repos)).
  - by rewrite !app_nil_r.
  - by intros [| []|[]|].
  - constructor; [done|]. apply Forall_forall. intros ev Hev.
    by apply list_elem_of_In, in_map_iff in Hev as (n & <- & _).
Qed.

Lemma main_of_selection E fuel a w self selected_repos w5 :
  reaches_selection E fuel a (log w [Print MsgBanner]) self selected_repos w5 →
  main E fuel a w = exit_status (conclude E self selected_repos w5) ∧
  patch_requests (trace w5) = patch_requests (trace w).
Proof.
  intros Hreach. split.
  - unfold main. rewrite (bind_ok _ _ _ _ _ (print_run _ w)).
    by rewrite (main_body_concludes _ _ _ _ _ _ _ Hreach).
  - apply reaches_selection_quiet in Hreach as (evs & -> & Hf). cbn [log trace].
    rewrite <- !app_assoc, !patch_requests_app.
    rewrite (patch_requests_none before_confirmation evs); [|by intros [| []|[]|]|done].
    simpl. by rewrite app_nil_r.
Qed.

(** X10. A run of [main] that gets to line 293 with a selection that is not
    empty, and reads [yes] or [y] at the confirmation, sends one update
    request for every selected name, in the order of the selection, to
    the account of the configured username, and ends with status 0
    whatever the requests return. *)
Theorem confirmed_selection_is_updated (E : environment) (fuel : nat) (a : args)
    (w : world) (self : manager) (selected_repos : list string) (w5 : world)
    (answer : string) (rest : list key) :
  reaches_selection E fuel a (log w [Print MsgBanner]) self selected_repos w5 →
  selected_repos ≠ [] →
  stdin w5 = Line answer :: rest →
  PyStr.lower (PyStr.strip answer) = "yes" ∨ PyStr.lower (PyStr.strip answer) = "y" →
  ∃ w', main E fuel a w = (Ok 0, w') ∧ stdin w' = rest ∧
        patch_requests (trace w')
        = patch_requests (trace w)
          ++ List.map (λ n, Send (PatchRepo (username self) n)) selected_repos.
Proof.
  intros Hreach Hne Hin Hyes. apply affirmative_yes in Hyes.
  destruct (main_of_selection _ _ _ _ _ _ _ Hreach) as [-> Hprefix].
  destruct (conclude_confirmed E self selected_repos w5 answer rest Hne Hin Hyes)
    as (w' & -> & Hstdin & Hpatch).
  exists w'. split; [done|]. split; [done|]. by rewrite Hpatch, Hprefix.
Qed.

(** [--batch c,a], answered [Y]: the updates go out in the order given. *)
Lemma confirmed_selection_is_updated_witness :
  ∃ w', main Sample.env 3 (Sample.batch "c,a") (Sample.console [Line "Y"]) = (Ok 0, w') ∧
        stdin w' = [] ∧
        patch_requests (trace w') = [Send (PatchRepo "u" "c"); Send (PatchRepo "u" "a")].
Proof.
  refine (confirmed_selection_is_updated Sample.env 3 (Sample.batch "c,a")
            (Sample.console [Line "Y"]) Sample.me ["c"; "a"]
            {| stdin := [Line "Y"]; trace := _ |} "Y" [] _ _ eq_refl _).
  - exists (log (Sample.console [Line "Y"])
              [Print MsgBanner; Send GetUser; Print (MsgAuthenticated "u")]).
    exists Sample.three. eexists. eexists.
    split; [eexists; repeat split; reflexivity|].
    split; [reflexivity|]. split; [reflexivity|]. split; [reflexivity|].
    vm_compute. reflexivity.
  - discriminate.
  - right. reflexivity.
Defined.

(** ** [--all], end to end *)

Lemma get_public_repos_delivered E self pages fuel w :
  delivers E 1 pages →
  (∃ status_code, api_list E (1 + Z.of_nat (length pages)) = Response status_code []
                  ∧ passes status_code = true) →
  (length pages < fuel)%nat →
  get_public_repos E fuel self w
  = (Ok (owned_of self pages),
     log w (Print MsgFetching :: list_requests 1 (S (length pages)))).
Proof.
  intros Hpages (status_code & Hempty & Hpass) Hfuel.
  unfold get_public_repos. rewrite (bind_ok _ _ _ _ _ (print_run _ w)).
  rewrite (fetch_pages_run E self pages []); [|done| |done].
  - by rewrite log_log, app_nil_r.
  - intros fuel' repos' w'. by eapply fetch_pages_empty.
Qed.

(** X11. With [--all], once authenticated: when the list endpoint delivers
    the pages [pages] and then an empty page, and the user confirms, [main]
    sends one update request for every repository of the pages that the
    configured user owns, in the order of the listing, and ends with
    status 0. *)
Theorem all_flag_updates_every_owned (E : environment) (fuel : nat) (a : args)
    (w : world) (self : manager) (w2 : world) (pages : list (list repo))
    (answer : string) (rest : list key) :
  authentication E (log w [Print MsgBanner]) self true w2 →
  delivers E 1 pages →
  (∃ status_code, api_list E (1 + Z.of_nat (length pages)) = Response status_code []
                  ∧ passes status_code = true) →
  (length pages < fuel)%nat →
  arg_list a = false → arg_all a = true →
  owned_of self pages ≠ [] →
  stdin w2 = Line answer :: rest →
  PyStr.lower (PyStr.strip answer) = "yes" ∨ PyStr.lower (PyStr.strip answer) = "y" →
  ∃ w', main E fuel a w = (Ok 0, w') ∧
        patch_requests (trace w')
        = patch_requests (trace w)
          ++ List.map (λ r, Send (PatchRepo (username self) (name r)))
               (owned_of self pages).
Proof.
  intros Hauth Hpages Hempty Hfuel Hnolist Hall Howned Hin Hyes.
  apply affirmative_yes in Hyes.
  pose proof (get_public_repos_delivered E self pages fuel w2 Hpages Hempty Hfuel) as Hlist.
  set (repos := owned_of self pages) in *.
  set (w3 := log w2 (Print MsgFetching :: list_requests 1 (S (length pages)))) in *.
  destruct (display_repos_run self repos w3) as (evs & Hdisplay & _).
  assert (reaches_selection E fuel a (log w [Print MsgBanner]) self
            (List.map name repos) (log w3 evs)) as Hreach.
  { exists w2, repos, w3, (log w3 evs). repeat split; try done.
    unfold select_repos. by rewrite Hall. }
  destruct (main_of_selection _ _ _ _ _ _ _ Hreach) as [-> Hprefix].
  destruct (conclude_confirmed E self (List.map name repos) (log w3 evs) answer rest)
    as (w' & -> & _ & Hpatch); [by destruct repos|done|done|].
  exists w'. split; [done|]. by rewrite Hpatch, Hprefix, List.map_map.
Qed.

(** Two pages with a foreign repository among them, [--all], [yes]. *)
Lemma all_flag_updates_every_owned_witness :
  ∃ w', main (Sample.with_list Sample.env
                (λ page, if page =? 1
                         then Response 200 [Sample.mk "a" "u"; Sample.mk "z" "other"]
                         else if page =? 2 then Response 200 [Sample.mk "b" "u"]
                              else Response 200 []))
          5 {| arg_list := false; arg_batch := None; arg_all := true |}
          (Sample.console [Line "yes"]) = (Ok 0, w') ∧
        patch_requests (trace w') = [Send (PatchRepo "u" "a"); Send (PatchRepo "u" "b")].
Proof.
  refine (all_flag_updates_every_owned _ 5
            {| arg_list := false; arg_batch := None; arg_all := true |}
            (Sample.console [Line "yes"]) Sample.me
            (log (Sample.console [Line "yes"])
               [Print MsgBanner; Send GetUser; Print (MsgAuthenticated "u")])
            [[Sample.mk "a" "u"; Sample.mk "z" "other"]; [Sample.mk "b" "u"]]
            "yes" [] _ _ _ _ eq_refl eq_refl _ eq_refl _).
  - eexists. repeat split; reflexivity.
  - intros i items Hi. destruct i as [|[|i]]; simpl in Hi; [| |discriminate];
      injection Hi as <-; (split; [discriminate|]); exists 200; split; reflexivity.
  - exists 200. split; reflexivity.
  - simpl. lia.
  - discriminate.
  - left. reflexivity.
Defined.

(** ** Batch mode, as sets *)

Lemma filter_sublist {A} (f : A → bool) (l : list A) : sublist (List.filter f l) l.
Proof.
  induction l as [|x l IH]; simpl; [constructor|].
  destruct (f x); by constructor.
Qed.

(** X12. In batch mode every name given on the command line is either
    selected or reported missing, never both; the selected ones are the
    fetched ones and keep the order of the command line. *)
Theorem batch_names_partition (batch : string) (repos : list repo) :
  let given := List.map PyStr.strip (PyStr.split "," batch) in
  sublist (batch_selection batch repos) given ∧
  ∀ n,
    (n ∈ given ↔ n ∈ batch_selection batch repos ∨ n ∈ batch_missing batch repos) ∧
    ¬ (n ∈ batch_selection batch repos ∧ n ∈ batch_missing batch repos) ∧
    (n ∈ batch_selection batch repos → n ∈ List.map name repos) ∧
    (n ∈ batch_missing batch repos → n ∉ List.map name repos).
Proof.
  intros given. split; [apply filter_sublist|]. intros n.
  rewrite batch_selection_elem, batch_missing_elem. fold given.
  destruct (decide (n ∈ List.map name repos)); tauto.
Qed.

(** ** The summary *)

Lemma successes_le E sent repo_names :
  (successes E sent repo_names <= length repo_names)%nat.
Proof.
  revert sent. induction repo_names as [|n rest IH]; intros sent; simpl; [lia|].
  specialize (IH (S sent)). destruct (updated _); lia.
Qed.

Lemma successes_full E sent repo_names :
  successes E sent repo_names = length repo_names
  ↔ ∀ i n, repo_names !! i = Some n → updated (api_patch E (sent + i) n) = true.
Proof.
  revert sent. induction repo_names as [|n rest IH]; intros sent; simpl.
  - split; [by intros _ i n' ?|done].
  - pose proof (successes_le E (S sent) rest) as Hle. split.
    + intros Hall [|i] n' Hi.
      * injection Hi as <-. rewrite Nat.add_0_r. destruct (updated _); [done | lia].
      * replace (sent + S i)%nat with (S sent + i)%nat by lia.
        apply IH; [|done]. destruct (updated _); lia.
    + intros Hall. rewrite (proj2 (IH (S sent))).
      * specialize (Hall 0%nat n eq_refl). rewrite Nat.add_0_r in Hall. by rewrite Hall.
      * intros i n' Hi. replace (S sent + i)%nat with (sent + S i)%nat by lia.
        by apply Hall.
Qed.

(** X13. The summary of [process_repos] never counts more successes than
    there are selected names, and counts as many exactly when every one of
    its update requests was answered by a response that is not 4xx or
    5xx. *)
Theorem summary_counts (E : environment) (self : manager)
    (repo_names : list string) (w : world) :
  repo_names ≠ [] →
  ∃ w' success_count,
    process_repos E self repo_names w = (Ok tt, w') ∧
    last (trace w') = Some (Print (MsgSummary success_count (length repo_names))) ∧
    (success_count <= length repo_names)%nat ∧
    (success_count = length repo_names
     ↔ ∀ i n, repo_names !! i = Some n →
              updated (api_patch E (length (patch_requests (trace w)) + i) n) = true).
Proof.
  intros Hne.
  destruct (process_repos_run E self repo_names w Hne) as (w' & Hrun & _ & _ & Hlast).
  exists w', (successes E (length (patch_requests (trace w))) repo_names).
  split; [done|]. split; [done|]. split; [apply successes_le | apply successes_full].
Qed.

Lemma summary_counts_witness :
  ∃ w' success_count,
    process_repos (with_patch Sample.env
                     (λ i _, if (i =? 1)%nat then ConnectionError else Response 204 tt))
      Sample.me ["a"; "b"; "c"] (Sample.console []) = (Ok tt, w') ∧
    last (trace w') = Some (Print (MsgSummary success_count 3)) ∧
    (success_count <= 3)%nat.
Proof.
  destruct (summary_counts
              (with_patch Sample.env
                 (λ i _, if (i =? 1)%nat then ConnectionError else Response 204 tt))
              Sample.me ["a"; "b"; "c"] (Sample.console []) ltac:(discriminate))
    as (w' & k & Hrun & Hlast & Hle & _).
  exists w', k. split; [exact Hrun|]. split; [exact Hlast | exact Hle].
Defined.

(** ** Before the listing *)



(** X15. When a credential is still missing after [get_credentials], [main]
    ends with status 1 without having sent a single request: what it added
    to the trace are printed lines, answers to the credential prompts and
    at most a write of the config file. *)
Theorem missing_credentials_contact_nobody (E : environment) (fuel : nat) (a : args)
    (w : world) :
  credentials_missing E (log w [Print MsgBanner]) →
  ∃ w' evs, main E fuel a w = (Ok 1, w') ∧
            trace w' = trace w ++ evs ∧
            Forall (λ ev, credentials_footprint ev = true) evs ∧
            ∀ r, Send r ∉ evs.
Proof.
  intros (tok & user & w1 & Hcred & Hmissing).
  destruct (get_credentials_obeys E _ _ _ Hcred) as [(evs1 & Ht1 & Hf1) _].
  exists (log w1 [Print MsgCredentialsRequired]),
    (Print MsgBanner :: evs1 ++ [Print MsgCredentialsRequired]).
  assert (Forall (λ ev, credentials_footprint ev = true)
            (Print MsgBanner :: evs1 ++ [Print MsgCredentialsRequired])) as Hall.
  { constructor; [done|]. apply Forall_app. split; [done | by repeat constructor]. }
  split; [|split; [|split; [done|]]].
  - unfold main. rewrite (bind_ok _ _ _ _ _ (print_run _ w)).
    unfold main_body. rewrite (bind_ok _ _ _ _ _ Hcred). cbn beta iota.
    assert (negb (PyStr.truthy tok) || negb (PyStr.truthy user) = true) as ->.
    { destruct Hmissing as [-> | ->]; [done | apply orb_true_r]. }
    by rewrite (bind_ok _ _ _ _ _ (print_run _ w1)).
  - cbn [log trace]. rewrite Ht1. cbn [log trace]. by rewrite <- !app_assoc.
  - intros r Hin. rewrite Forall_forall in Hall. by specialize (Hall _ Hin).
Qed.

(** No token anywhere and an empty answer at the prompt. *)
Lemma missing_credentials_contact_nobody_witness :
  ∃ w' evs,
    main {| env_token := None; env_username := Some "u";
            config_token := None; config_username := Some "u";
            config_writable := true;
            api_user := Response 200 (Some "u");
            api_list := λ _, Response 200 [];
            api_patch := λ _ _, Response 200 tt |}
      3 Sample.interactive (Sample.console [Line "  "; Line "n"]) = (Ok 1, w') ∧
    trace w' = [] ++ evs ∧ ∀ r, Send r ∉ evs.
Proof.
  destruct (missing_credentials_contact_nobody
              {| env_token := None; env_username := Some "u";
                 config_token := None; config_username := Some "u";
                 config_writable := true;
                 api_user := Response 200 (Some "u");
                 api_list := λ _, Response 200 [];
                 api_patch := λ _ _, Response 200 tt |}
              3 Sample.interactive (Sample.console [Line "  "; Line "n"]))
    as (w' & evs & Hmain & Htrace & _ & Hsend).
  - exists "", "u". eexists. split; [reflexivity|]. left. reflexivity.
  - exists w', evs. split; [exact Hmain|]. split; [exact Htrace | exact Hsend].
Defined.

(** ** What is updated *)

Lemma at_position_name repos i x : at_position repos i x → x ∈ List.map name repos.
Proof.
  intros (_ & r & Hr & <-). apply list_elem_of_In, in_map, list_elem_of_In.
  by eapply list_elem_of_lookup_2.
Qed.

Lemma select_part_names repos part l x :
  select_part repos part = inr l → x ∈ l → x ∈ List.map name repos.
Proof.
  unfold select_part. intros Hsel Hx.
  repeat case_match; try discriminate;
    match goal with
    | H : pick_each ?r ?idx = inr _ |- _ =>
        destruct (pick_each_inr r idx) as (l' & Hl' & Hchar)
    | H : pick ?r ?i = inr _ |- _ =>
        destruct (pick_inr r i) as (l' & Hl' & Hchar)
    end;
    assert (l' = l) as -> by congruence; apply Hchar in Hx.
  - destruct Hx as (i & _ & Hx). by eapply at_position_name.
  - by eapply at_position_name.
Qed.

Lemma select_parts_names repos parts l x :
  select_parts repos parts = inr l → x ∈ l → x ∈ List.map name repos.
Proof.
  revert l. induction parts as [|part rest IH]; simpl; intros l.
  - intros [= <-] Hx. by apply elem_of_nil in Hx.
  - destruct (select_part repos part) as [|picked] eqn:Hpart; [done|].
    destruct (select_parts repos rest) as [|more]; [done|].
    intros [= <-] Hx. apply elem_of_app in Hx as [Hx|Hx].
    + by eapply select_part_names.
    + by eapply IH.
Qed.

Lemma selection_turn_names repos line l x :
  selection_turn repos line = inr l → x ∈ l → x ∈ List.map name repos.
Proof.
  unfold selection_turn.
  destruct (String.eqb _ "quit"); [intros [= <-] Hx; by apply elem_of_nil in Hx|].
  destruct (String.eqb _ "all"); [by intros [= <-]|].
  destruct (select_parts repos _) as [|selected] eqn:Hparts; [done|].
  intros [= <-] Hx. rewrite list_set_elem in Hx.
  exact (select_parts_names _ _ _ _ Hparts Hx).
Qed.

Lemma selection_loop_names repos keys tr names w' x :
  selection_loop repos keys tr = (Ok names, w') → x ∈ names → x ∈ List.map name repos.
Proof.
  revert tr. induction keys as [|[line|] rest IH]; intros tr; simpl; [done| |done].
  destruct (selection_turn repos line) as [e|l] eqn:Hturn.
  - apply selection_turn_raises in Hturn as ->. apply IH.
  - intros [= <- _] Hx. by eapply selection_turn_names.
Qed.

(** Whatever the mode and whatever is typed, the names selected are names
    of the listing. *)
Lemma select_repos_names a self repos w names w' x :
  select_repos a self repos w = (Ok names, w') → x ∈ names → x ∈ List.map name repos.
Proof.
  unfold select_repos. destruct (arg_all a); [by intros [= <- _]|].
  destruct (truthy_opt (arg_batch a)).
  - intros Hrun Hx.
    apply bind_cases in Hrun as [(? & ? & _ & [= <- _])|[(? & _ & [=])|[_ [=]]]].
    by apply batch_selection_elem in Hx as [_ Hx].
  - unfold interactive_selection. destruct repos as [|r repos].
    + intros [= <- _] Hx. by apply elem_of_nil in Hx.
    + rewrite (bind_ok _ _ _ _ _ (print_run _ _)). apply selection_loop_names.
Qed.

(** The update requests of [conclude] are for selected names, on the
    account of the configured username. *)
Lemma conclude_patches E self selected_repos w out w' :
  conclude E self selected_repos w = (out, w') →
  ∃ evs, trace w' = trace w ++ evs ∧
         ∀ o n, Send (PatchRepo o n) ∈ evs → o = username self ∧ n ∈ selected_repos.
Proof.
  assert (∀ w0 w1, extends confirmation_footprint w0 w1 →
            ∃ evs, trace w1 = trace w0 ++ evs ∧
                   ∀ o n, Send (PatchRepo o n) ∈ evs
                          → o = username self ∧ n ∈ selected_repos) as Hquiet.
  { intros w0 w1 (evs & Ht & Hf). exists evs. split; [done|]. intros o n Hin.
    rewrite Forall_forall in Hf. by specialize (Hf _ Hin). }
  unfold conclude. destruct selected_repos as [|n0 names0] eqn:Hsel.
  { intros [= <- <-]. apply Hquiet, extends_log. by repeat constructor. }
  rewrite <- Hsel in *. assert (selected_repos ≠ []) as Hne by (by rewrite Hsel).
  clear Hsel n0 names0. intros Hrun.
  apply bind_cases in Hrun as [(b & w1 & Hconfirm & Hrest)|Hstop]; cycle 1.
  { apply Hquiet. destruct Hstop as [(e & Hc & _)|[Hc _]];
      eapply obeys_extends; eauto using confirm_action_obeys. }
  pose proof (obeys_extends _ _ _ _ _ _ (confirm_action_obeys self selected_repos) Hconfirm)
    as (evs1 & Ht1 & Hf1).
  destruct b; cycle 1.
  { rewrite print_run in Hrest. injection Hrest as <- <-. apply Hquiet.
    exists (evs1 ++ [Print MsgOperationCancelled]). cbn [log trace].
    split; [by rewrite Ht1, <- app_assoc|]. apply Forall_app. split; [done|].
    by repeat constructor. }
  pose proof (obeys_extends _ _ _ _ _ _ (process_repos_obeys E self selected_repos) Hrest)
    as (evs2 & Ht2 & _).
  destruct (process_repos_run E self selected_repos w1 Hne) as (w2 & Hrun & _ & Hpatch & _).
  rewrite Hrun in Hrest. injection Hrest as <- <-.
  rewrite Ht2, patch_requests_app in Hpatch. apply app_inv_head in Hpatch.
  exists (evs1 ++ evs2). split; [by rewrite Ht2, Ht1, app_assoc|].
  intros o n Hin. apply elem_of_app in Hin as [Hin|Hin].
  { rewrite Forall_forall in Hf1. by specialize (Hf1 _ Hin). }
  assert (Send (PatchRepo o n) ∈ patch_requests evs2) as Hin2.
  { unfold patch_requests. apply list_elem_of_In, filter_In.
    split; [by apply list_elem_of_In | done]. }
  rewrite Hpatch in Hin2.
  apply list_elem_of_In, in_map_iff in Hin2 as (n' & [= <- <-] & Hn').
  split; [done | by apply list_elem_of_In].
Qed.

(** X16. [main] only ever asks to update a repository that the list
    endpoint delivered, in a page with a passing status, with the
    configured user as owner: whatever the flags, the console and the
    endpoints do, every update request in the trace names such a
    repository and that owner. *)
Theorem updates_only_listed_owned (E : environment) (fuel : nat) (a : args)
    (w : world) (out : outcome Z) (w' : world) (evs : list event) :
  main E fuel a w = (out, w') →
  trace w' = trace w ++ evs →
  ∀ o n, Send (PatchRepo o n) ∈ evs →
         ∃ page status_code items r,
           api_list E page = Response status_code items ∧ passes status_code = true ∧
           r ∈ items ∧ name r = n ∧ owner_login r = Some o.
Proof.
  intros Hmain Htrace o n Hin. unfold main in Hmain.
  rewrite (bind_ok _ _ _ _ _ (print_run _ w)) in Hmain.
  destruct (main_body E fuel a (log w [Print MsgBanner])) as [r w2] eqn:Hbody.
  apply exit_status_prints in Hmain as (evs3 & Ht3 & Hf3). cbn [snd] in Ht3.
  assert (∀ evs1, trace w2 = trace (log w [Print MsgBanner]) ++ evs1 →
                  Send (PatchRepo o n) ∈ evs1) as Hin1.
  { intros evs1 Ht1. rewrite Ht3, Ht1 in Htrace. cbn [log trace] in Htrace.
    rewrite <- !app_assoc in Htrace. apply app_inv_head in Htrace. subst evs.
    cbn [app] in Hin. rewrite elem_of_cons, elem_of_app in Hin. destruct Hin as [[=]|[Hin|Hin]]; [done|].
    rewrite Forall_forall in Hf3. by specialize (Hf3 _ Hin). }
  apply main_body_cases in Hbody
    as [[(evs1 & Ht1 & Hf1) _]|[[(evs1 & Ht1 & Hf1) _]|
        (me & sel & w5 & Hreach & (evs1 & Ht1 & Hf1) & Hconclude)]].
  - specialize (Hin1 _ Ht1). rewrite Forall_forall in Hf1. by specialize (Hf1 _ Hin1).
  - specialize (Hin1 _ Ht1). rewrite Forall_forall in Hf1. by specialize (Hf1 _ Hin1).
  - apply conclude_patches in Hconclude as (evs2 & Ht2 & Hpatches).
    assert (Send (PatchRepo o n) ∈ evs2) as Hin2.
    { rewrite Ht1, <- app_assoc in Ht2. specialize (Hin1 _ Ht2).
      apply elem_of_app in Hin1 as [Hin1|Hin1]; [|done].
      rewrite Forall_forall in Hf1. by specialize (Hf1 _ Hin1). }
    destruct (Hpatches o n Hin2) as [-> Hsel].
    destruct Hreach as (w2' & repos & w3 & w4 & _ & Hlist & _ & _ & Hselect).
    apply (select_repos_names _ _ _ _ _ _ n Hselect) in Hsel.
    apply list_elem_of_In, in_map_iff in Hsel as (r0 & <- & Hr0).
    unfold get_public_repos in Hlist.
    rewrite (bind_ok _ _ _ _ _ (print_run _ _)) in Hlist.
    pose proof (fetch_pages_sound E me
                  (λ r, owner_login r = Some (username me) ∧
                        ∃ page status_code items,
                          api_list E page = Response status_code items ∧
                          passes status_code = true ∧ r ∈ items)) as Hsound.
    eapply Hsound in Hlist; [| |lia|constructor].
    + rewrite Forall_forall in Hlist.
      destruct (Hlist r0 ltac:(by apply list_elem_of_In))
        as (Howner & page & status_code & items & Hanswer & Hpass & Hitem).
      by exists page, status_code, items, r0.
    + intros page status_code items r1 _ Hanswer Hpass Hr1 Howner.
      split; [done|]. by exists page, status_code, items.
Qed.

Lemma updates_only_listed_owned_witness :
  ∃ page status_code items r,
    api_list Sample.env page = Response status_code items ∧ passes status_code = true ∧
    r ∈ items ∧ name r = "b" ∧ owner_login r = Some "u".
Proof.
  refine (updates_only_listed_owned Sample.env 3 (Sample.batch "b,nope")
            (Sample.console [Line "y"]) _ _ _ (surjective_pairing _) eq_refl "u" "b" _).
  vm_compute. apply list_elem_of_In. repeat (first [left; reflexivity | right]).
Defined.
